(** * pymoo: the repair operator and the random-key (BRKGA) example

    A shallow embedding of the two notebooks of the repository:
    - the repair-operator notebook ([ConsiderMaximumWeightRepair._do] and
      the table that [minimize] prints);
    - the BRKGA notebook ([MyProblem] and
      [MyElementwiseDuplicateElimination]).

    The first half of the file holds the definitions, the second half the
    lemmas and theorems. *)

From Stdlib Require Import ZArith QArith Lia.
From stdpp Require Import base option list sorting gmap strings numbers pretty.

Local Open Scope Z_scope.

(* ===================================================================== *)
(** * Part I: definitions                                                 *)
(* ===================================================================== *)

(** ** Python values, exceptions and results *)

Module Py.

(** The exception classes the modelled code can raise. *)
Inductive exn : Type :=
| ValueError   (* np.random.choice on an empty array *)
| IndexError   (* indexing past the end of an array *)
| TypeError.   (* subscripting a missing (None) attribute *)

(** The name under which Python reports an exception class. *)
Definition exn_name (e : exn) : string :=
  match e with
  | ValueError => "ValueError"
  | IndexError => "IndexError"
  | TypeError => "TypeError"
  end.

(** What running a piece of code yields: a value, a raised exception, or
    [Unfinished] when the loop budget of the model ran out before the
    code returned. *)
Inductive outcome (A : Type) : Type :=
| Returned (a : A)
| Raised (e : exn)
| Unfinished.
Arguments Returned {A} a.
Arguments Raised {A} e.
Arguments Unfinished {A}.

Definition bind {A B} (m : outcome A) (k : A → outcome B) : outcome B :=
  match m with
  | Returned a => k a
  | Raised e => Raised e
  | Unfinished => Unfinished
  end.

Definition outcome_map {A B} (f : A → B) (m : outcome A) : outcome B :=
  match m with
  | Returned a => Returned (f a)
  | Raised e => Raised e
  | Unfinished => Unfinished
  end.

(** Values that a problem or an operator attaches to an individual. *)
Inductive value : Type :=
| Int (n : Z)
| Float (x : Q)
| IntArray (a : list Z)
| FloatArray (a : list Q).

End Py.
Export Py.

Notation "x ←? m ; k" := (Py.bind m (λ x, k))
  (at level 20, m at level 100, k at level 200, only parsing).
Notation "' pat ←? m ; k" := (Py.bind m (λ x, match x with pat => k end))
  (at level 20, pat pattern, m at level 100, k at level 200, only parsing).

(** ** Individuals and populations *)

Module Engine.

(** Modelled from the spec: the [Individual] and [Population] classes are
    not part of the two notebooks.  An individual carries its decision
    vector [X] and an open-ended mapping of further named attributes; a
    population is an ordered sequence of individuals with bulk get and
    set over one attribute. *)
Record Individual (A : Type) : Type := mkInd {
  X : list A;
  data : gmap string value
}.
Arguments mkInd {A} X data.
Arguments X {A} i.
Arguments data {A} i.

Definition Population (A : Type) : Type := list (Individual A).

Definition set_X {A} (ind : Individual A) (x : list A) : Individual A :=
  {| X := x; data := data ind |}.

(** Modelled from the spec: [pop.get("X")] assembles a fresh matrix, one
    row per individual. *)
Definition get_X {A} (pop : Population A) : list (list A) := map X pop.

(** Modelled from the spec: [pop.set("X", M)] scatters the rows of [M],
    row [i] becoming the [X] of individual [i]; nothing else is touched. *)
Definition set_Xs {A} (pop : Population A) (M : list (list A)) : Population A :=
  zip_with set_X pop M.

(** Objects live in a store and are passed around by reference. *)
Definition ref : Type := positive.

End Engine.
Export Engine.

(** ** NumPy's global random state *)

(** The generator behind [np.random] is a library of its own; the model is
    parametric in it: a state type with the one operation the repair
    reaches through [np.random.choice], namely [randint(0, n + 1)], which
    hands out an integer from 0 to [n] and the state the generator is left
    in.  How many raw draws that costs is the generator's business (NumPy
    takes none when [n = 0] and a varying number otherwise). *)
Class RandomState (G : Type) : Type :=
  np_random_randint : G → ∀ n : nat, fin (S n) * G.

(** A concrete generator, used to run the model on examples: it replays a
    tape of numbers, cutting each down to the range asked for, takes
    nothing from the tape when there is only one number to hand out, and
    hands out 0 once the tape is used up. *)
Fixpoint fin_below (n i : nat) : fin (S n) :=
  match n return fin (S n) with
  | O => 0%fin
  | S n' =>
      match i with
      | O => 0%fin
      | S i' => FS (fin_below n' i')
      end
  end.

Definition Tape : Type := list nat.
#[export] Instance tape_random : RandomState Tape :=
  λ t n, match n with
         | O => (0%fin, t)
         | S _ => (fin_below n (hd 0%nat t), tl t)
         end.

(** ** NumPy's number types *)

(** The weights [problem.W] are an array of whatever number type the
    problem was given, and the repair computes in that type.  The model is
    parametric in it: the product of a bit and a number ([Z * problem.W]),
    the sum of a row ([.sum(axis=1)]), the difference ([-=]) and the
    comparison ([>]), each as the type computes it. *)
Class Dtype (T : Type) : Type := {
  dt_mul : bool → T → T;
  dt_sum : list T → T;
  dt_sub : T → T → T;
  dt_gt : T → T → bool
}.

(** [int64], the type of the arrays [np.random.randint] makes: 64-bit
    two's complement integers, every operation wrapping around. *)
Definition int64 : Type := Z.

Definition wrap64 (x : Z) : int64 := (x + 2 ^ 63) mod 2 ^ 64 - 2 ^ 63.

Definition max_int64 : Z := 2 ^ 63 - 1.

#[export] Instance int64_dtype : Dtype int64 := {|
  dt_mul b w := if b then w else 0;
  dt_sum l := foldl (λ acc x, wrap64 (acc + x)) 0 l;
  dt_sub a b := wrap64 (a - b);
  dt_gt a b := b <? a
|}.

(** ** The repair operator (repair notebook) *)

Module Repair.

(** The part of the knapsack problem the repair reads: the number of
    items, the item weights [problem.W] and the capacity [problem.C], in
    the number type [T] of the weights. *)
Record Knapsack (T : Type) : Type := mkKnapsack {
  n_var : nat;
  W : list T;
  C : T
}.
Arguments mkKnapsack {T} n_var W C.
Arguments n_var {T} k.
Arguments W {T} k.
Arguments C {T} k.

(** [np.where(z)[0]]: the positions of the selected items, ascending. *)
Fixpoint where_from (j : nat) (z : list bool) : list nat :=
  match z with
  | [] => []
  | b :: z' => if b then j :: where_from (S j) z' else where_from (S j) z'
  end.
Definition np_where (z : list bool) : list nat := where_from 0 z.

(** The number of selected items of a packing plan. *)
Definition selected (z : list bool) : nat := length (np_where z).

Section with_generator.
Context {G : Type} `{RandomState G}.

(** The interpreter state: the hidden state of [np.random] and the
    object store holding the populations. *)
Record World : Type := mkWorld {
  np_random : G;
  heap : gmap ref (Population bool)
}.

(** [np.random.choice(a)] for a one-dimensional [a]: raises on an empty
    array, otherwise the global generator hands out a position of [a]. *)
Definition np_random_choice (a : list nat) (g : G) : outcome (nat * G) :=
  match a with
  | [] => Raised ValueError
  | x :: a' =>
      let '(k, g') := np_random_randint g (length a') in
      Returned (nth (fin_to_nat k) a x, g')
  end.

Section with_dtype.
Context {T : Type} `{Dtype T}.

(** One row of [(Z * problem.W).sum(axis=1)]. *)
Definition weigh (z : list bool) (Wt : list T) : T :=
  dt_sum (zip_with dt_mul z Wt).

(** The [while weights[i] > Q] loop on the packing plan [z] with tracked
    weight [w].  [fuel] bounds the number of times the loop test is
    evaluated. *)
Fixpoint repair_while (fuel : nat) (problem : Knapsack T) (Q : T)
    (z : list bool) (w : T) (g : G) : outcome (list bool * T * G) :=
  match fuel with
  | O => Unfinished
  | S fuel' =>
      if dt_gt w Q then
        '(item_to_remove, g') ←? np_random_choice (np_where z) g;
        match W problem !! item_to_remove with
        | Some wi =>
            repair_while fuel' problem Q (<[item_to_remove := false]> z)
              (dt_sub w wi) g'
        | None => Raised IndexError
        end
      else Returned (z, w, g)
  end.

(** The body of [for i in range(len(Z))]. *)
Definition repair_at (fuel : nat) (problem : Knapsack T) (Q : T) (i : nat)
    (st : list (list bool) * list T * G) : outcome (list (list bool) * list T * G) :=
  let '(Zm, weights, g) := st in
  match Zm !! i, weights !! i with
  | Some z, Some w =>
      '(z', w', g') ←? repair_while fuel problem Q z w g;
      Returned (<[i := z']> Zm, <[i := w']> weights, g')
  | _, _ => Raised IndexError
  end.

Fixpoint for_range (fuel : nat) (problem : Knapsack T) (Q : T) (range : list nat)
    (st : list (list bool) * list T * G) : outcome (list (list bool) * list T * G) :=
  match range with
  | [] => Returned st
  | i :: range' =>
      st' ←? repair_at fuel problem Q i st;
      for_range fuel problem Q range' st'
  end.

(** [ConsiderMaximumWeightRepair._do(problem, pop)]. *)
Definition _do (fuel : nat) (problem : Knapsack T) (pop : ref) (σ : World)
    : outcome (ref * World) :=
  let Q := C problem in
  let Zm := get_X (heap σ !!! pop) in
  let weights := map (λ z, weigh z (W problem)) Zm in
  '(Zm', _, g') ←? for_range fuel problem Q (seq 0 (length Zm))
                      (Zm, weights, np_random σ);
  Returned (pop, {| np_random := g';
                    heap := <[pop := set_Xs (heap σ !!! pop) Zm']> (heap σ) |}).

(** *** Specification vocabulary *)

(** The shapes the operator is called with: one weight per item, and
    one bit per item in every decision vector. *)
Definition well_shaped (problem : Knapsack T) (P : Population bool) : Prop :=
  length (W problem) = n_var problem ∧
  Forall (λ ind, length (X ind) = n_var problem) P.

(** The packing plan [z] passes the test of the loop: its weight, as the
    code computes it, is not above the capacity. *)
Definition within_capacity (problem : Knapsack T) (z : list bool) : Prop :=
  dt_gt (weigh z (W problem)) (C problem) = false.

(** What holds of a [while] loop that has returned. *)
Record while_post (Q : T)
    (z : list bool) (w : T) (g : G) (z' : list bool) (w' : T) (g' : G) : Prop := {
  post_guard : dt_gt w' Q = false;
  post_length : length z' = length z;
  post_removal : ∀ j, z !! j = Some false → z' !! j = Some false;
  post_idle : dt_gt w Q = false → z' = z ∧ w' = w ∧ g' = g;
  post_selected : (selected z' ≤ selected z)%nat
}.

(** A row [z] of the population and the row [z'] a run of the loop has
    made of it. *)
Definition row_run (fuel : nat) (problem : Knapsack T) (z z' : list bool) : Prop :=
  ∃ g w' g',
    repair_while fuel problem (C problem) z (weigh z (W problem)) g
    = Returned (z', w', g').

(** The same loop read row by row: the rows with their tracked weights
    are repaired in order, each starting from the generator state the
    previous one left.  [for_range_rows] relates it to [for_range]. *)
Fixpoint repair_rows (fuel : nat) (problem : Knapsack T) (Q : T)
    (rows : list (list bool)) (weights : list T) (g : G)
    : outcome (list (list bool) * list T * G) :=
  match rows, weights with
  | z :: rows', w :: weights' =>
      '(z', w', g1) ←? repair_while fuel problem Q z w g;
      '(rows'', weights'', g2) ←? repair_rows fuel problem Q rows' weights' g1;
      Returned (z' :: rows'', w' :: weights'', g2)
  | _, _ => Returned ([], [], g)
  end.

End with_dtype.
End with_generator.
Arguments World G : clear implicits.

(** *** Exact sums, for the integer number type *)

(** The weighted sum of a packing plan: the sum of [W[j]] over the
    selected items [j], as a number. *)
Definition weighted_sum (Wt : list Z) (z : list bool) : Z :=
  foldr Z.add 0 (map (λ j, default 0 (Wt !! j)) (np_where z)).

(** The same sum, item by item. *)
Fixpoint exact_sum (z : list bool) (Wt : list Z) : Z :=
  match z, Wt with
  | b :: z', w :: Wt' => (if b then w else 0) + exact_sum z' Wt'
  | _, _ => 0
  end.

(** The weight of all items together. *)
Definition total_weight (Wt : list Z) : Z := foldr Z.add 0 Wt.

(** *** Small instances to run the operator on *)

(** Three items weighing 4, 5 and 6 and a knapsack of capacity 6. *)
Definition small_problem : Knapsack int64 := mkKnapsack 3 [4; 5; 6] 6.

(** One item and a negative capacity, which no packing plan meets. *)
Definition negative_problem : Knapsack int64 := mkKnapsack 1 [1] (-1).

(** Three items whose weights add up to more than an [int64] holds. *)
Definition huge_problem : Knapsack int64 := mkKnapsack 3 [2 ^ 62; 2 ^ 62; 1] 10.

Definition the_pop : ref := 1%positive.

(** A store with one population of two individuals: the first selects all
    three items, the second only the item of weight 5; the first also
    carries an attribute of its own. *)
Definition small_pop : Population bool :=
  [ mkInd [true; true; true] {[ "tag" := Int 7 ]};
    mkInd [false; true; false] ∅ ].

Definition small_world (tape : Tape) : World Tape :=
  {| np_random := tape; heap := {[ the_pop := small_pop ]} |}.

Definition single_world (tape : Tape) : World Tape :=
  {| np_random := tape; heap := {[ the_pop := [mkInd [true] ∅] ]} |}.

(** A store whose one individual selects all three items. *)
Definition full_world (tape : Tape) : World Tape :=
  {| np_random := tape; heap := {[ the_pop := [mkInd [true; true; true] ∅] ]} |}.

(** [small_world [1; 0]] after the repair: the generator has picked the
    items of weight 5 and 4 of the first individual for removal. *)
Definition small_pop_repaired : Population bool :=
  [ mkInd [false; false; true] {[ "tag" := Int 7 ]};
    mkInd [false; true; false] ∅ ].

Definition small_world_repaired : World Tape :=
  {| np_random := []; heap := {[ the_pop := small_pop_repaired ]} |}.

End Repair.

(** ** The random-key permutation problem (BRKGA notebook) *)

Module BRKGA.

(** [class MyProblem]: [self.correct] and the number of variables. *)
Record MyProblem : Type := {
  correct : list nat;
  n_var : nat
}.

(** [np.argsort(x)]: the positions of [x] in ascending order of their
    keys.  Positions are inserted from left to right, each behind the
    positions whose key is not larger, so equal keys keep their order
    (NumPy leaves the order of equal keys open). *)
Definition key (x : list Q) (i : nat) : Q := default 0%Q (x !! i).

Fixpoint insert_position (x : list Q) (i : nat) (sorted : list nat) : list nat :=
  match sorted with
  | [] => [i]
  | j :: sorted' =>
      if Qle_bool (key x j) (key x i)
      then j :: insert_position x i sorted'
      else i :: sorted
  end.

Definition np_argsort (x : list Q) : list nat :=
  foldl (λ sorted i, insert_position x i sorted) [] (seq 0 (length x)).

(** Position [i] comes before position [j] in the order of the keys. *)
Definition ascending (x : list Q) (i j : nat) : Prop := (key x i <= key x j)%Q.

(** [a == b] on two integer arrays of one shape, and [.sum()] of the
    resulting array of booleans. *)
Definition np_equal (a b : list nat) : list bool := zip_with Nat.eqb a b.
Definition np_sum (bs : list bool) : nat := sum_list (map Nat.b2n bs).

(** [MyProblem.__init__(my_list)]. *)
Definition __init__ (my_list : list Q) : MyProblem :=
  {| correct := np_argsort my_list; n_var := length my_list |}.

Section with_python.
(** Python's built-in [hash] on strings and NumPy's [str] of an integer
    array are taken as they come. *)
Context (py_hash : string → Z) (np_str : list nat → string).

(** [MyProblem._evaluate(x, out)]: the entries written to [out]. *)
Definition _evaluate (self : MyProblem) (x : list Q) : gmap string value :=
  let pheno := np_argsort x in
  <["hash" := Int (py_hash (np_str pheno))]>
    (<["pheno" := IntArray (map Z.of_nat pheno)]>
       (<["F" := Float (- inject_Z (Z.of_nat (np_sum (np_equal (correct self) pheno))))]>
          ∅)).

(** Modelled from the spec: the evaluation step of the engine is not
    part of the notebooks.  It attaches the entries of [out] to the
    individual as named attributes; a scalar entry is kept as an array
    of one element, which is why the notebook reads [get("hash")[0]]
    and prints [F = [-20.]]. *)
Definition as_array (v : value) : value :=
  match v with
  | Int n => IntArray [n]
  | Float q => FloatArray [q]
  | IntArray _ | FloatArray _ => v
  end.

Definition evaluate (problem : MyProblem) (x : list Q) : Individual Q :=
  mkInd x (as_array <$> _evaluate problem x).

(** Modelled from the spec: [ind.get(name)] is the attribute of that name,
    or [None] when it is not set. *)
Definition get (ind : Individual Q) (name : string) : option value :=
  data ind !! name.

(** [v[0]]. *)
Definition item0 (v : option value) : outcome value :=
  match v with
  | Some (IntArray (n :: _)) => Returned (Int n)
  | Some (FloatArray (q :: _)) => Returned (Float q)
  | Some (IntArray []) | Some (FloatArray []) => Raised IndexError
  | Some (Int _) | Some (Float _) | None => Raised TypeError
  end.

(** [u == v] on two numbers. *)
Definition py_eq (u v : value) : outcome bool :=
  match u, v with
  | Int m, Int n => Returned (m =? n)
  | Int m, Float q | Float q, Int m => Returned (Qeq_bool (inject_Z m) q)
  | Float p, Float q => Returned (Qeq_bool p q)
  | _, _ => Raised TypeError
  end.

(** [MyElementwiseDuplicateElimination.is_equal(a, b)]. *)
Definition is_equal (a b : Individual Q) : outcome bool :=
  ha ←? item0 (get a "hash");
  hb ←? item0 (get b "hash");
  py_eq ha hb.

End with_python.

(** *** Stand-ins for [hash] and [str], to run the model on examples *)

Definition toy_str (a : list nat) : string :=
  foldr (λ n s, pretty n +:+ " " +:+ s) EmptyString a.

Definition toy_hash (s : string) : Z := Z.of_nat (String.length s).

End BRKGA.

(** ** The per-generation report (repair notebook, [verbose=True]) *)

Module Reporter.

(** One line of the table that [minimize] prints. *)
Record Row : Type := mkRow {
  n_gen : nat;
  n_eval : nat;
  cv_min : Q;
  cv_avg : Q;
  fopt : option Q;     (* [None] is the placeholder [-] *)
  favg : option Q
}.

(** Modelled from the spec: the reporter, the survival operator and the
    generational loop are not part of the notebooks; only the tables they
    printed are.  An evaluated individual is seen through its objective
    [F] and its constraint violation [CV], and is feasible when [CV] is 0. *)
Record Evaluated : Type := mkEval {
  F : Q;
  CV : Q
}.

Definition feasible (ind : Evaluated) : bool := Qeq_bool (CV ind) 0.

Fixpoint minimum (q : Q) (l : list Q) : Q :=
  match l with
  | [] => q
  | r :: l' => minimum (if Qle_bool q r then q else r) l'
  end.

Definition np_min (l : list Q) : Q :=
  match l with
  | [] => 0%Q
  | q :: l' => minimum q l'
  end.

Definition np_mean (l : list Q) : Q :=
  (foldr Qplus 0 l / inject_Z (Z.of_nat (length l)))%Q.

(** Modelled from the spec: each generation the reporter records the
    evaluation count so far, the minimum and the average constraint
    violation of the population and, only when the population has a
    feasible individual, the best and the average objective among the
    feasible ones. *)
Definition report (n_gen n_eval : nat) (pop : list Evaluated) : Row :=
  let cv := map CV pop in
  let f := map F (List.filter feasible pop) in
  {| n_gen := n_gen;
     n_eval := n_eval;
     cv_min := np_min cv;
     cv_avg := np_mean cv;
     fopt := match f with [] => None | _ :: _ => Some (np_min f) end;
     favg := match f with [] => None | _ :: _ => Some (np_mean f) end |}.

(** Modelled from the spec: survival ranks the pool, any feasible
    individual before any infeasible one and otherwise by objective,
    equal ranks in order of insertion, and keeps the first [pop_size]. *)
Definition outranks (a b : Evaluated) : bool :=
  match feasible a, feasible b with
  | true, false => true
  | false, true => false
  | _, _ => Qle_bool (F a) (F b)
  end.

Fixpoint rank_insert (a : Evaluated) (ranked : list Evaluated) : list Evaluated :=
  match ranked with
  | [] => [a]
  | b :: ranked' =>
      if outranks b a then b :: rank_insert a ranked' else a :: ranked
  end.

Definition rank (pool : list Evaluated) : list Evaluated :=
  foldl (λ ranked a, rank_insert a ranked) [] pool.

Definition survival (pop_size : nat) (pool : list Evaluated) : list Evaluated :=
  take pop_size (rank pool).

(** Modelled from the spec: the generational loop, seen from the
    reporter.  The first population is reported as it is; every further
    generation merges the evaluated offspring into the population by
    survival.  What selection, crossover, mutation, repair and duplicate
    elimination produce is left open: [offsprings] lists the evaluated
    offspring of the successive generations. *)
Fixpoint run (pop_size : nat) (g evals : nat) (pop : list Evaluated)
    (offsprings : list (list Evaluated)) : list (list Evaluated * Row) :=
  (pop, report g evals pop) ::
  match offsprings with
  | [] => []
  | off :: rest =>
      run pop_size (S g) (evals + length off)
        (survival pop_size (pop ++ off)) rest
  end.

(** Modelled from the spec: [minimize] as far as its table goes, started
    on an evaluated first population; generations count from 1 and the first
    population has been evaluated once. *)
Definition minimize (pop : list Evaluated) (offsprings : list (list Evaluated))
    : list (list Evaluated * Row) :=
  run (length pop) 1 (length pop) pop offsprings.

Definition has_feasible (pop : list Evaluated) : Prop :=
  ∃ ind, ind ∈ pop ∧ feasible ind = true.

(** *** A small run of the model *)

Definition tiny_pop : list Evaluated :=
  [ mkEval (-(3 # 1)) (5 # 1); mkEval (-(7 # 1)) (2 # 1) ].

Definition tiny_offsprings : list (list Evaluated) :=
  [ [ mkEval (-(1 # 1)) 0; mkEval (-(9 # 1)) (4 # 1) ];
    [ mkEval (-(2 # 1)) (1 # 1); mkEval (-(4 # 1)) 0 ] ].

End Reporter.

(** ** Further vocabulary for the two notebooks *)

Module RepairView.
Import Repair.

Section with_generator.
Context {G : Type} `{RandomState G} {T : Type} `{Dtype T}.

(** The operator seen from the population alone: [_do] run on a store that
    holds nothing but the population, and what it leaves of the population
    and of the generator. *)
Definition repair_population (fuel : nat) (problem : Knapsack T)
    (P : Population bool) (g : G) : outcome (Population bool * G) :=
  outcome_map (λ r, (heap r.2 !!! r.1, np_random r.2))
    (_do fuel problem the_pop {| np_random := g; heap := {[ the_pop := P ]} |}).

End with_generator.

(** The packing plan [z] with item [j] selected again. *)
Definition put_back (j : nat) (z : list bool) : list bool := <[j := true]> z.

End RepairView.

Module BRKGAView.
Import BRKGA.

(** Two key vectors of one length whose keys compare alike, position by
    position. *)
Definition same_order (x y : list Q) : bool :=
  (length x =? length y)%nat &&
  forallb (λ i,
    forallb (λ j,
      Bool.eqb (Qle_bool (key x i) (key x j)) (Qle_bool (key y i) (key y j)))
      (seq 0 (length x)))
    (seq 0 (length x)).

End BRKGAView.

(* ===================================================================== *)
(** * Part II: lemmas and theorems                                        *)
(* ===================================================================== *)

Module RepairFacts.
Import Repair.

Section outcome_facts.
Context {A B : Type}.

Lemma bind_Returned (m : outcome A) (k : A → outcome B) b :
  Py.bind m k = Returned b → ∃ a, m = Returned a ∧ k a = Returned b.
Proof. destruct m; simpl; intros Hk; try discriminate. eauto. Qed.

Lemma bind_Unfinished (m : outcome A) (k : A → outcome B) :
  Py.bind m k = Unfinished →
  m = Unfinished ∨ ∃ a, m = Returned a ∧ k a = Unfinished.
Proof. destruct m; simpl; intros Hk; try discriminate; eauto. Qed.

Lemma bind_Raised (m : outcome A) (k : A → outcome B) e :
  Py.bind m k = Raised e →
  m = Raised e ∨ ∃ a, m = Returned a ∧ k a = Raised e.
Proof.
  destruct m; simpl; intros Hk; try discriminate; eauto.
  injection Hk as ->. by left.
Qed.
End outcome_facts.

(** *** [np.where] *)

Lemma elem_of_where_from j k z :
  j ∈ where_from k z ↔ ∃ i, j = (k + i)%nat ∧ z !! i = Some true.
Proof.
  revert k. induction z as [|b z IH]; intros k; simpl.
  - split; [intros Hin; inversion Hin | intros (i & _ & Hi); discriminate].
  - assert (Htail : j ∈ where_from (S k) z ↔
                    ∃ i, j = (k + S i)%nat ∧ z !! i = Some true).
    { rewrite IH. split; intros (i & -> & Hi); exists i; split; auto; lia. }
    destruct b.
    + rewrite elem_of_cons, Htail. split.
      * intros [-> | (i & -> & Hi)]; [exists 0%nat | exists (S i)]; split; auto; lia.
      * intros ([|i] & -> & Hi); [left; lia | right; eauto].
    + rewrite Htail. split.
      * intros (i & -> & Hi). exists (S i). auto.
      * intros ([|i] & -> & Hi); [discriminate | eauto].
Qed.

Lemma elem_of_np_where j z : j ∈ np_where z ↔ z !! j = Some true.
Proof.
  unfold np_where. rewrite elem_of_where_from. split.
  - intros (i & -> & Hi). exact Hi.
  - intros Hj. exists j. auto.
Qed.

Lemma length_where_from k k' z :
  length (where_from k z) = length (where_from k' z).
Proof.
  revert k k'. induction z as [|[] z IH]; intros k k'; simpl; auto.
Qed.

Lemma selected_cons b z :
  selected (b :: z) = ((if b then 1 else 0) + selected z)%nat.
Proof.
  unfold selected, np_where. destruct b; simpl;
    by rewrite (length_where_from 1 0).
Qed.

Lemma selected_le_length z : (selected z ≤ length z)%nat.
Proof.
  induction z as [|b z IH]; [done|].
  rewrite selected_cons. destruct b; simpl; lia.
Qed.

(** Unselecting a selected item leaves one selected item fewer. *)
Lemma selected_remove z i :
  z !! i = Some true →
  S (selected (<[i := false]> z)) = selected z.
Proof.
  revert i. induction z as [|b z IH]; intros [|i] Hi; simpl in *; try discriminate.
  - injection Hi as ->. by rewrite !selected_cons.
  - rewrite !selected_cons. rewrite <- (IH i Hi). destruct b; simpl; lia.
Qed.

Section with_generator.
Context {G : Type} `{RandomState G} {T : Type} `{Dtype T}.
Implicit Types (g : G) (z : list bool) (problem : Knapsack T).

(** *** [np.random.choice] *)

Lemma choice_Returned a g x g' :
  np_random_choice a g = Returned (x, g') → x ∈ a.
Proof.
  unfold np_random_choice. destruct a as [|y a]; [discriminate|].
  destruct (np_random_randint g (length a)) as [k g1].
  intros [= <- <-]. apply list_elem_of_In.
  apply (nth_In (y :: a) y). pose proof (fin_to_nat_lt k). simpl. lia.
Qed.

Lemma choice_Raised a g e :
  np_random_choice a g = Raised e → a = [] ∧ e = ValueError.
Proof.
  unfold np_random_choice. destruct a as [|y a]; [by intros [= <-]|].
  by destruct (np_random_randint g (length a)).
Qed.

Lemma choice_not_Unfinished a g : np_random_choice a g ≠ Unfinished.
Proof.
  unfold np_random_choice. destruct a as [|y a]; [done|].
  by destruct (np_random_randint g (length a)).
Qed.

(** *** The [while] loop *)

Lemma repair_while_unfold fuel problem Q z w g :
  repair_while (S fuel) problem Q z w g =
  if dt_gt w Q then
    '(item, g') ←? np_random_choice (np_where z) g;
    match W problem !! item with
    | Some wi => repair_while fuel problem Q (<[item := false]> z) (dt_sub w wi) g'
    | None => Raised IndexError
    end
  else Returned (z, w, g).
Proof. reflexivity. Qed.

Lemma repair_while_sound fuel problem Q z w g z' w' g' :
  repair_while fuel problem Q z w g = Returned (z', w', g') →
  while_post Q z w g z' w' g'.
Proof.
  revert z w g. induction fuel as [|fuel IH]; intros z w g; [discriminate|].
  rewrite repair_while_unfold. destruct (dt_gt w Q) eqn:Hcmp.
  - intros Hrun. apply bind_Returned in Hrun as ([item g1] & Hch & Hrun).
    apply choice_Returned, elem_of_np_where in Hch as Hin.
    destruct (W problem !! item) as [wi|] eqn:HW; [|discriminate].
    destruct (IH _ _ _ Hrun) as [Hguard Hlen Hrem Hidle Hsel].
    pose proof (selected_remove z item Hin) as Hcnt.
    split.
    + exact Hguard.
    + by rewrite Hlen, length_insert.
    + intros j Hj. apply Hrem.
      rewrite list_lookup_insert_ne; [done|]. intros ->. congruence.
    + intros Hfits. congruence.
    + lia.
  - intros [= -> -> ->]. split; auto.
Qed.

(** The loop needs at most one iteration per selected item. *)
Lemma repair_while_finishes fuel problem Q z w g :
  (selected z < fuel)%nat →
  repair_while fuel problem Q z w g ≠ Unfinished.
Proof.
  revert z w g. induction fuel as [|fuel IH]; intros z w g Hfuel; [lia|].
  rewrite repair_while_unfold. destruct (dt_gt w Q); [|done].
  intros Hrun. apply bind_Unfinished in Hrun as [Hch | ([item g1] & Hch & Hrun)].
  - by apply choice_not_Unfinished in Hch.
  - apply choice_Returned, elem_of_np_where in Hch as Hin.
    destruct (W problem !! item); [|discriminate].
    revert Hrun. apply IH.
    pose proof (selected_remove z item Hin). lia.
Qed.

(** More budget does not change a finished loop. *)
Lemma repair_while_fuel_mono fuel fuel' problem Q z w g :
  (fuel ≤ fuel')%nat →
  repair_while fuel problem Q z w g ≠ Unfinished →
  repair_while fuel' problem Q z w g = repair_while fuel problem Q z w g.
Proof.
  revert fuel' z w g. induction fuel as [|fuel IH]; intros fuel' z w g Hle; [done|].
  destruct fuel' as [|fuel']; [lia|].
  rewrite !repair_while_unfold. destruct (dt_gt w Q); [|done].
  destruct (np_random_choice (np_where z) g) as [[item g1]| |]; simpl; try done.
  destruct (W problem !! item); [|done].
  apply IH. lia.
Qed.

(** The only ways the loop can stop with an exception: the [ValueError]
    of a choice among no item, or, on a packing plan longer than the
    array of weights, an [IndexError]. *)
Lemma repair_while_Raised fuel problem Q z w g e :
  repair_while fuel problem Q z w g = Raised e →
  e = ValueError ∨ (e = IndexError ∧ (length (W problem) < length z)%nat).
Proof.
  revert z w g. induction fuel as [|fuel IH]; intros z w g; [discriminate|].
  rewrite repair_while_unfold. destruct (dt_gt w Q); [|discriminate].
  intros Hrun. apply bind_Raised in Hrun as [Hch | ([item g1] & Hch & Hrun)].
  - apply choice_Raised in Hch as [_ ->]. by left.
  - apply choice_Returned, elem_of_np_where in Hch as Hin.
    destruct (W problem !! item) as [wi|] eqn:HW.
    + apply IH in Hrun. by rewrite length_insert in Hrun.
    + injection Hrun as <-. right. split; [done|].
      apply lookup_ge_None in HW. apply lookup_lt_Some in Hin. lia.
Qed.

(** *** The [for] loop *)

Lemma for_range_rows fuel problem Q pre_z pre_w rows ws g :
  length pre_z = length pre_w → length rows = length ws →
  for_range fuel problem Q (seq (length pre_z) (length rows))
    (pre_z ++ rows, pre_w ++ ws, g) =
  '(rows', ws', g') ←? repair_rows fuel problem Q rows ws g;
  Returned (pre_z ++ rows', pre_w ++ ws', g').
Proof.
  revert pre_z pre_w ws g.
  induction rows as [|z rows IH]; intros pre_z pre_w [|w ws] g Hpre Hlen;
    simpl in Hlen; try discriminate.
  - reflexivity.
  - injection Hlen as Hlen. simpl seq. simpl for_range. unfold repair_at.
    rewrite list_lookup_middle by done.
    rewrite list_lookup_middle by done. simpl repair_rows.
    destruct (repair_while fuel problem Q z w g) as [[[z' w'] g1]| |];
      simpl; try reflexivity.
    replace (<[length pre_z := z']> (pre_z ++ z :: rows))
      with ((pre_z ++ [z']) ++ rows).
    2:{ rewrite insert_app_r_alt by lia. rewrite Nat.sub_diag. simpl.
        by rewrite <- app_assoc. }
    replace (<[length pre_z := w']> (pre_w ++ w :: ws))
      with ((pre_w ++ [w']) ++ ws).
    2:{ rewrite Hpre. rewrite insert_app_r_alt by lia. rewrite Nat.sub_diag.
        simpl. by rewrite <- app_assoc. }
    replace (S (length pre_z)) with (length (pre_z ++ [z']))
      by (rewrite length_app; simpl; lia).
    rewrite IH; [|rewrite !length_app; simpl; lia|done].
    destruct (repair_rows fuel problem Q rows ws g1) as [[[rows' ws'] g2]| |];
      simpl; try reflexivity.
    by rewrite <- !app_assoc.
Qed.

(** [_do] in terms of the row-by-row loop. *)
Lemma _do_rows fuel problem pop (σ : World G) P :
  heap σ !! pop = Some P →
  _do fuel problem pop σ =
  '(Zm', _, g') ←? repair_rows fuel problem (C problem) (get_X P)
                     (map (λ z, weigh z (W problem)) (get_X P)) (np_random σ);
  Returned (pop, {| np_random := g';
                    heap := <[pop := set_Xs P Zm']> (heap σ) |}).
Proof.
  intros HP. unfold _do. rewrite (lookup_total_correct _ _ _ HP).
  pose proof (for_range_rows fuel problem (C problem) [] [] (get_X P)
                (map (λ z, weigh z (W problem)) (get_X P)) (np_random σ)
                eq_refl) as Hrows.
  cbn [app length] in Hrows. rewrite Hrows by (by rewrite length_map).
  destruct (repair_rows _ _ _ _ _ _) as [[[rows' ws'] g2]| |]; reflexivity.
Qed.

(** Every row of the result comes from a run of the loop on the row it
    replaces. *)
Lemma repair_rows_runs fuel problem rows g rows' ws' g' :
  repair_rows fuel problem (C problem) rows
    (map (λ z, weigh z (W problem)) rows) g = Returned (rows', ws', g') →
  Forall2 (row_run fuel problem) rows rows'.
Proof.
  revert g rows' ws' g'. induction rows as [|z rows IH]; intros g rows' ws' g'; simpl.
  - intros [= <- <- <-]. constructor.
  - intros Hrun.
    apply bind_Returned in Hrun as ([[z1 w1] g1] & Hz & Hrun).
    apply bind_Returned in Hrun as ([[rows1 ws1] g2] & Hrows & Hrun).
    injection Hrun as <- <- <-. constructor; [|by eapply IH].
    by exists g, w1, g1.
Qed.

(** With one unit of budget more than the rows have selected items, the
    loop over the rows returns or stops with the [ValueError] of a choice
    among no item. *)
Lemma repair_rows_outcome fuel problem Q rows ws g :
  Forall (λ z, (length z ≤ length (W problem))%nat ∧ (selected z < fuel)%nat) rows →
  (∃ r, repair_rows fuel problem Q rows ws g = Returned r) ∨
  repair_rows fuel problem Q rows ws g = Raised ValueError.
Proof.
  intros Hrows. revert ws g.
  induction Hrows as [|z rows [Hlen Hfuel] _ IH]; intros [|w ws] g; simpl; try by eauto.
  destruct (repair_while fuel problem Q z w g) as [[[z1 w1] g1]|e|] eqn:Hz; simpl.
  - destruct (IH ws g1) as [[[[rows1 ws1] g2] Hr] | Hr]; rewrite Hr; simpl; eauto.
  - apply repair_while_Raised in Hz as [-> | [_ Hbad]]; [by right | lia].
  - by apply repair_while_finishes in Hz.
Qed.

(** *** The operator as a whole *)

Lemma set_Xs_Forall2 (R : list bool → list bool → Prop) (P : Population bool) M :
  Forall2 R (get_X P) M →
  Forall2 (λ ind ind', R (X ind) (X ind') ∧ data ind' = data ind) P (set_Xs P M).
Proof.
  revert M. induction P as [|ind P IH]; intros M HM; inversion HM; subst; simpl.
  - constructor.
  - constructor; [by split | by apply IH].
Qed.

(** The repaired population, row by row. *)
Lemma _do_population fuel problem pop (σ : World G) P r σ' :
  heap σ !! pop = Some P →
  _do fuel problem pop σ = Returned (r, σ') →
  r = pop ∧ ∃ P',
    heap σ' !! pop = Some P' ∧
    (∀ r', r' ≠ pop → heap σ' !! r' = heap σ !! r') ∧
    Forall2 (λ ind ind',
      row_run fuel problem (X ind) (X ind') ∧ data ind' = data ind) P P'.
Proof.
  intros HP Hrun. rewrite (_do_rows _ _ _ _ P HP) in Hrun.
  apply bind_Returned in Hrun as ([[Zm' ws'] g'] & Hrows & Hrun).
  injection Hrun as <- <-. split; [done|]. exists (set_Xs P Zm'). simpl.
  split; [apply lookup_insert_eq|]. split.
  - intros r' Hne. by rewrite lookup_insert_ne.
  - apply set_Xs_Forall2. by eapply repair_rows_runs.
Qed.

Lemma row_run_post fuel problem z z' :
  row_run fuel problem z z' →
  length z' = length z ∧
  (∀ j, z !! j = Some false → z' !! j = Some false) ∧
  (within_capacity problem z → z' = z).
Proof.
  intros (g & w' & g' & Hrun).
  apply repair_while_sound in Hrun as [_ Hlen Hrem Hidle _].
  split; [done|]. split; [done|]. intros Hfits. by destruct (Hidle Hfits).
Qed.

Lemma rows_in_shape fuel problem (P : Population bool) :
  well_shaped problem P →
  (n_var problem < fuel)%nat →
  Forall (λ z, (length z ≤ length (W problem))%nat ∧ (selected z < fuel)%nat)
    (get_X P).
Proof.
  intros [HW HP] Hfuel. unfold get_X. apply Forall_fmap.
  eapply list.Forall_impl; [exact HP|]. intros ind Hlen. unfold compose.
  pose proof (selected_le_length (X ind)). simpl in *. split; lia.
Qed.

(** The budget of the model does not matter once it is above [n_var]. *)
Lemma repair_rows_fuel_mono fuel fuel' problem Q rows ws g :
  (fuel ≤ fuel')%nat →
  repair_rows fuel problem Q rows ws g ≠ Unfinished →
  repair_rows fuel' problem Q rows ws g = repair_rows fuel problem Q rows ws g.
Proof.
  intros Hle. revert ws g. induction rows as [|z rows IH]; intros [|w ws] g;
    simpl; try done.
  intros Hfin.
  assert (Hrow : repair_while fuel problem Q z w g ≠ Unfinished).
  { intros Hrow. by rewrite Hrow in Hfin. }
  rewrite (repair_while_fuel_mono fuel fuel' problem Q z w g Hle Hrow).
  destruct (repair_while fuel problem Q z w g) as [[[z1 w1] g1]| |]; simpl; try done.
  simpl in Hfin. rewrite IH; [done|].
  intros Hrest. by rewrite Hrest in Hfin.
Qed.

Lemma _do_fuel_irrelevant fuel fuel' problem pop (σ : World G) P :
  heap σ !! pop = Some P →
  well_shaped problem P →
  (n_var problem < fuel)%nat → (n_var problem < fuel')%nat →
  _do fuel problem pop σ = _do fuel' problem pop σ.
Proof.
  intros HP Hshape Hfuel Hfuel'. rewrite !(_do_rows _ _ _ _ P HP).
  assert (Hbase : repair_rows (S (n_var problem)) problem (C problem) (get_X P)
                    (map (λ z, weigh z (W problem)) (get_X P)) (np_random σ)
                  ≠ Unfinished).
  { destruct (repair_rows_outcome (S (n_var problem)) problem (C problem) (get_X P)
                (map (λ z, weigh z (W problem)) (get_X P)) (np_random σ))
      as [[r Hr] | Hr]; [apply rows_in_shape; [done | lia] | |];
      by rewrite Hr. }
  rewrite (repair_rows_fuel_mono (S (n_var problem)) fuel) by (done || lia).
  by rewrite (repair_rows_fuel_mono (S (n_var problem)) fuel') by (done || lia).
Qed.

(** ** Properties of the repair operator, in every number type *)


(** C3, as the code has it.  There is no iteration cap and no
    [RepairNonTermination]: whatever the number type of the weights, the
    removal loop of an individual stops by itself after at most as many
    iterations as the individual has selected items, so with a budget
    above [n_var] the operator always finishes.  It either returns or
    stops with the [ValueError] that [np.random.choice] raises once no
    selected item is left. *)
Theorem repair_stops_by_itself fuel problem pop (σ : World G) P :
  heap σ !! pop = Some P →
  well_shaped problem P →
  (n_var problem < fuel)%nat →
  (∃ σ', _do fuel problem pop σ = Returned (pop, σ')) ∨
  _do fuel problem pop σ = Raised ValueError.
Proof.
  intros HP Hshape Hfuel. rewrite (_do_rows _ _ _ _ P HP).
  destruct (repair_rows_outcome fuel problem (C problem) (get_X P)
              (map (λ z, weigh z (W problem)) (get_X P)) (np_random σ))
    as [[[[Zm' ws'] g'] Hr] | Hr]; [by apply rows_in_shape | |].
  - left. rewrite Hr. simpl. eauto.
  - right. by rewrite Hr.
Qed.

End with_generator.

(** *** [int64]: wrapping sums and exact sums *)

Lemma wrap64_shift x k : wrap64 (x + k * 2 ^ 64) = wrap64 x.
Proof.
  unfold wrap64. replace (x + k * 2 ^ 64 + 2 ^ 63) with (x + 2 ^ 63 + k * 2 ^ 64) by lia.
  by rewrite Z_mod_plus_full.
Qed.

Lemma wrap64_multiple x : ∃ k, wrap64 x = x + k * 2 ^ 64.
Proof.
  exists (- ((x + 2 ^ 63) / 2 ^ 64)). unfold wrap64.
  rewrite Z.mod_eq by lia. lia.
Qed.

Lemma wrap64_add_l a b : wrap64 (wrap64 a + b) = wrap64 (a + b).
Proof.
  destruct (wrap64_multiple a) as [k ->].
  replace (a + k * 2 ^ 64 + b) with (a + b + k * 2 ^ 64) by lia.
  apply wrap64_shift.
Qed.

Lemma wrap64_sub_l a b : wrap64 (wrap64 a - b) = wrap64 (a - b).
Proof.
  destruct (wrap64_multiple a) as [k ->].
  replace (a + k * 2 ^ 64 - b) with (a - b + k * 2 ^ 64) by lia.
  apply wrap64_shift.
Qed.

Lemma wrap64_small x : - 2 ^ 63 ≤ x ≤ max_int64 → wrap64 x = x.
Proof.
  unfold wrap64, max_int64. intros Hx. rewrite Z.mod_small by lia. lia.
Qed.

Lemma wrap64_range x : - 2 ^ 63 ≤ wrap64 x ≤ max_int64.
Proof.
  unfold wrap64, max_int64.
  pose proof (Z.mod_pos_bound (x + 2 ^ 63) (2 ^ 64) ltac:(lia)). lia.
Qed.

Lemma sum_wrap64 (l : list Z) a :
  foldl (λ acc x, wrap64 (acc + x)) (wrap64 a) l = wrap64 (a + foldr Z.add 0 l).
Proof.
  revert a. induction l as [|x l IH]; intros a; simpl.
  - by rewrite Z.add_0_r.
  - rewrite wrap64_add_l, IH. f_equal. lia.
Qed.

Lemma exact_sum_products (z : list bool) (Wt : list Z) :
  foldr Z.add 0 (zip_with (λ (b : bool) w, if b then w else 0) z Wt) = exact_sum z Wt.
Proof.
  revert Wt. induction z as [|b z IH]; intros [|w Wt]; simpl; try done.
  by rewrite IH.
Qed.

(** The sum the code computes is the exact sum, wrapped. *)
Lemma weigh_int64 (z : list bool) (Wt : list int64) :
  weigh z Wt = wrap64 (exact_sum z Wt).
Proof.
  unfold weigh. cbn [dt_sum dt_mul int64_dtype].
  change 0 with (wrap64 0) at 1. by rewrite sum_wrap64, exact_sum_products.
Qed.

Lemma exact_sum_where_from k z (Wt : list Z) :
  foldr Z.add 0 (map (λ j, default 0 (Wt !! j)) (where_from k z)) =
  exact_sum z (drop k Wt).
Proof.
  revert k. induction z as [|b z IH]; intros k; [done|].
  destruct (Wt !! k) as [w|] eqn:Hk.
  - rewrite (drop_S _ _ _ Hk). simpl. destruct b; simpl; rewrite IH, ?Hk; simpl; lia.
  - assert (Hdrop : ∀ m, (k ≤ m)%nat → drop m Wt = []).
    { intros m Hm. apply drop_ge. apply lookup_ge_None in Hk. lia. }
    rewrite (Hdrop k) by lia. simpl.
    destruct b; simpl; rewrite IH, ?Hk, (Hdrop (S k)) by lia; by destruct z.
Qed.

Lemma exact_sum_weighted_sum z (Wt : list Z) : exact_sum z Wt = weighted_sum Wt z.
Proof. unfold weighted_sum, np_where. by rewrite exact_sum_where_from. Qed.

Lemma exact_sum_remove z (Wt : list Z) i wi :
  z !! i = Some true → Wt !! i = Some wi →
  exact_sum (<[i := false]> z) Wt = exact_sum z Wt - wi.
Proof.
  revert Wt i. induction z as [|b z IH]; intros [|w Wt] [|i] Hz HW;
    simpl in *; try discriminate.
  - injection Hz as ->. injection HW as ->. lia.
  - rewrite (IH Wt i) by assumption. lia.
Qed.

Lemma exact_sum_nothing_selected z (Wt : list Z) : np_where z = [] → exact_sum z Wt = 0.
Proof. intros Hz. by rewrite exact_sum_weighted_sum; unfold weighted_sum; rewrite Hz. Qed.

(** With non-negative weights every plan weighs between 0 and the total. *)
Lemma exact_sum_bounds z (Wt : list Z) :
  Forall (λ w, 0 ≤ w) Wt → 0 ≤ exact_sum z Wt ≤ total_weight Wt.
Proof.
  intros HW. revert z. induction HW as [|w Wt Hw _ IH]; intros [|b z]; simpl; try lia.
  - unfold total_weight in *. simpl. specialize (IH []). destruct Wt; simpl in *; lia.
  - unfold total_weight in *. simpl. specialize (IH z). destruct b; lia.
Qed.

(** Where the weights are non-negative and fit an [int64] together, the
    computed weight of a plan is its weighted sum. *)
Lemma weigh_exact z (Wt : list int64) :
  Forall (λ w, 0 ≤ w) Wt → total_weight Wt ≤ max_int64 →
  weigh z Wt = weighted_sum Wt z.
Proof.
  intros HW Htotal. rewrite weigh_int64, <- exact_sum_weighted_sum.
  apply wrap64_small. pose proof (exact_sum_bounds z Wt HW).
  unfold max_int64 in *. lia.
Qed.

Lemma within_capacity_exact (problem : Knapsack int64) z :
  Forall (λ w, 0 ≤ w) (W problem) → total_weight (W problem) ≤ max_int64 →
  within_capacity problem z ↔ weighted_sum (W problem) z ≤ C problem.
Proof.
  intros HW Htotal. unfold within_capacity. rewrite (weigh_exact _ _ HW Htotal).
  cbn [dt_gt int64_dtype]. apply Z.ltb_ge.
Qed.

(** With non-negative weights a plan whose weighted sum is within the
    capacity passes the test of the loop: its partial sums stay below the
    capacity, so none of them wraps around (and a sum too large for an
    [int64] is within no capacity that the wrapped sum could exceed). *)
Lemma weighted_sum_within_capacity (problem : Knapsack int64) z :
  Forall (λ w, 0 ≤ w) (W problem) →
  weighted_sum (W problem) z ≤ C problem →
  within_capacity problem z.
Proof.
  intros HW Hle. unfold within_capacity.
  rewrite weigh_int64, exact_sum_weighted_sum.
  cbn [dt_gt int64_dtype]. apply Z.ltb_ge.
  pose proof (exact_sum_bounds z (W problem) HW) as [Hpos _].
  rewrite exact_sum_weighted_sum in Hpos.
  destruct (decide (weighted_sum (W problem) z ≤ max_int64)) as [Hfit | Hbig].
  - rewrite wrap64_small; [done|]. unfold max_int64 in *. lia.
  - pose proof (wrap64_range (weighted_sum (W problem) z)). lia.
Qed.

Section int64_loop.
Context {G : Type} `{RandomState G}.
Implicit Types (g : G) (z : list bool) (problem : Knapsack int64).

(** In [int64] the tracked weight is the computed weight of the plan, all
    along the loop. *)
Lemma weigh_int64_remove z (Wt : list int64) i wi :
  z !! i = Some true → Wt !! i = Some wi →
  dt_sub (weigh z Wt) wi = weigh (<[i := false]> z) Wt.
Proof.
  intros Hz HW. rewrite !weigh_int64. cbn [dt_sub int64_dtype].
  by rewrite wrap64_sub_l, (exact_sum_remove _ _ _ _ Hz HW).
Qed.

Lemma repair_while_tracks fuel problem Q z g z' w' g' :
  repair_while fuel problem Q z (weigh z (W problem)) g = Returned (z', w', g') →
  w' = weigh z' (W problem).
Proof.
  revert z g. induction fuel as [|fuel IH]; intros z g; [discriminate|].
  rewrite repair_while_unfold. destruct (dt_gt _ Q).
  - intros Hrun. apply bind_Returned in Hrun as ([item g1] & Hch & Hrun).
    apply choice_Returned, elem_of_np_where in Hch as Hin.
    destruct (W problem !! item) as [wi|] eqn:HW; [|discriminate].
    rewrite (weigh_int64_remove _ _ _ _ Hin HW) in Hrun. by eapply IH.
  - by intros [= <- <- <-].
Qed.

(** With a capacity that is not negative the loop cannot run out of items. *)
Lemma repair_while_no_ValueError fuel problem Q z g :
  0 ≤ Q →
  repair_while fuel problem Q z (weigh z (W problem)) g ≠ Raised ValueError.
Proof.
  intros HQ. revert z g. induction fuel as [|fuel IH]; intros z g; [discriminate|].
  rewrite repair_while_unfold.
  destruct (dt_gt (weigh z (W problem)) Q) eqn:Hcmp; [|discriminate].
  intros Hrun. apply bind_Raised in Hrun as [Hch | ([item g1] & Hch & Hrun)].
  - apply choice_Raised in Hch as [Hnone _].
    rewrite weigh_int64, (exact_sum_nothing_selected _ _ Hnone) in Hcmp.
    cbn [dt_gt int64_dtype] in Hcmp. apply Z.ltb_lt in Hcmp.
    change (wrap64 0) with 0 in Hcmp. lia.
  - apply choice_Returned, elem_of_np_where in Hch as Hin.
    destruct (W problem !! item) as [wi|] eqn:HW; [|discriminate].
    rewrite (weigh_int64_remove _ _ _ _ Hin HW) in Hrun. by eapply IH.
Qed.

Lemma repair_rows_returns fuel problem rows g :
  0 ≤ C problem →
  Forall (λ z, (length z ≤ length (W problem))%nat ∧ (selected z < fuel)%nat) rows →
  ∃ r, repair_rows fuel problem (C problem) rows
         (map (λ z, weigh z (W problem)) rows) g = Returned r.
Proof.
  intros HQ Hrows. revert g.
  induction Hrows as [|z rows [Hlen Hfuel] _ IH]; intros g; [simpl; eauto|].
  cbn [map repair_rows].
  destruct (repair_while fuel problem (C problem) z (weigh z (W problem)) g)
    as [[[z1 w1] g1]|e|] eqn:Hz; cbn [Py.bind].
  - destruct (IH g1) as [[[rows1 ws1] g2] Hr]. rewrite Hr. cbn [Py.bind]. eauto.
  - apply repair_while_Raised in Hz as Hcase. destruct Hcase as [-> | [_ Hbad]]; [|lia].
    by apply repair_while_no_ValueError in Hz.
  - by apply repair_while_finishes in Hz.
Qed.

Lemma _do_returns fuel problem pop (σ : World G) P :
  heap σ !! pop = Some P →
  well_shaped problem P →
  0 ≤ C problem →
  (n_var problem < fuel)%nat →
  ∃ σ', _do fuel problem pop σ = Returned (pop, σ').
Proof.
  intros HP Hshape HQ Hfuel. rewrite (_do_rows _ _ _ _ P HP).
  destruct (repair_rows_returns fuel problem (get_X P) (np_random σ) HQ)
    as [[[Zm' ws'] g'] Hr]; [by apply rows_in_shape|].
  rewrite Hr. simpl. eauto.
Qed.

(** A row the loop has returned passes the test of the loop. *)
Lemma row_run_within_capacity fuel problem z z' :
  row_run fuel problem z z' → within_capacity problem z'.
Proof.
  intros (g & w' & g' & Hrun). unfold within_capacity.
  rewrite <- (repair_while_tracks _ _ _ _ _ _ _ _ Hrun).
  by apply repair_while_sound in Hrun as [Hguard _ _ _ _].
Qed.

(** ** Properties of the repair operator on [int64] weights *)


(** C1 (feasibility restoration), as the code has it.  For a population of
    binary decision vectors and a knapsack problem whose [int64] weights
    are non-negative and fit an [int64] together, and whose capacity [Q]
    is not negative, [_do] returns, and in the population it returns
    every individual's weighted sum (the sum of [W[j]] over the selected
    items [j]) is at most [Q]; each individual of the result is the
    individual of the input in the same place, its other attributes kept
    and no item added.  [n_var < fuel] gives the model of the [while] loop
    enough budget to finish. *)
Theorem repair_restores_feasibility fuel problem pop (σ : World G) P :
  heap σ !! pop = Some P →
  well_shaped problem P →
  Forall (λ w, 0 ≤ w) (W problem) →
  total_weight (W problem) ≤ max_int64 →
  0 ≤ C problem →
  (n_var problem < fuel)%nat →
  ∃ σ' P',
    _do fuel problem pop σ = Returned (pop, σ') ∧
    heap σ' !! pop = Some P' ∧
    Forall (λ ind, weighted_sum (W problem) (X ind) ≤ C problem) P' ∧
    Forall2 (λ ind ind',
      data ind' = data ind ∧
      length (X ind') = length (X ind) ∧
      ∀ j, X ind !! j = Some false → X ind' !! j = Some false) P P'.
Proof.
  intros HP Hshape HW Htotal HQ Hfuel.
  destruct (_do_returns _ _ _ _ _ HP Hshape HQ Hfuel) as [σ' Hrun].
  destruct (_do_population _ _ _ _ _ _ _ HP Hrun) as (_ & P' & HP' & _ & Hrows).
  exists σ', P'. split; [done|]. split; [done|]. split.
  - apply Forall_lookup_2. intros i ind' Hi.
    destruct (Forall2_lookup_r _ _ _ _ _ Hrows Hi) as (ind & _ & Hrow & _).
    apply row_run_within_capacity in Hrow.
    by apply within_capacity_exact in Hrow.
  - eapply list.Forall2_impl; [exact Hrows|].
    intros ind ind' [Hrow Hdata].
    destruct (row_run_post _ _ _ _ Hrow) as (Hlen & Hrem & _). done.
Qed.


End int64_loop.

(** *** The operator on the small instances *)

Example small_world_run :
  _do 4 small_problem the_pop (small_world [1; 0]%nat)
  = Returned (the_pop, small_world_repaired).
Proof. vm_compute. reflexivity. Qed.

Example negative_capacity_run :
  _do 2 negative_problem the_pop (single_world [0]%nat) = Raised ValueError.
Proof. vm_compute. reflexivity. Qed.

Lemma repair_restores_feasibility_witness :
  ∃ σ' P',
    _do 4 small_problem the_pop (small_world [1; 0]%nat) = Returned (the_pop, σ') ∧
    heap σ' !! the_pop = Some P' ∧
    Forall (λ ind, weighted_sum (W small_problem) (X ind) ≤ C small_problem) P' ∧
    Forall2 (λ ind ind',
      data ind' = data ind ∧
      length (X ind') = length (X ind) ∧
      ∀ j, X ind !! j = Some false → X ind' !! j = Some false) small_pop P'.
Proof.
  apply (repair_restores_feasibility 4 small_problem the_pop
           (small_world [1; 0]%nat) small_pop).
  - reflexivity.
  - split; [reflexivity | repeat constructor].
  - repeat constructor; simpl; lia.
  - vm_compute. discriminate.
  - simpl. lia.
  - simpl. lia.
Defined.

(** C1, as the spec states it, fails: the weights of [huge_problem] are
    non-negative and so is its capacity, but their [int64] sum wraps
    around to a negative number, the test of the loop fails at once, and
    [_do] returns the individual untouched, all three items selected and
    far above the capacity. *)
Lemma repair_misses_overflowing_weights :
  Forall (λ w, 0 ≤ w) (W huge_problem) ∧
  0 ≤ C huge_problem ∧
  _do 4 huge_problem the_pop (full_world []) = Returned (the_pop, full_world []) ∧
  ¬ weighted_sum (W huge_problem) [true; true; true] ≤ C huge_problem.
Proof.
  split; [repeat constructor; simpl; lia|]. split; [simpl; lia|].
  split; [vm_compute; reflexivity|]. vm_compute. intros Hle. by apply Hle.
Qed.



Lemma repair_stops_by_itself_witness :
  (∃ σ', _do 2 negative_problem the_pop (single_world [0]%nat)
         = Returned (the_pop, σ')) ∨
  _do 2 negative_problem the_pop (single_world [0]%nat) = Raised ValueError.
Proof.
  apply (repair_stops_by_itself 2 negative_problem the_pop
           (single_world [0]%nat) [mkInd [true] ∅]).
  - reflexivity.
  - split; [reflexivity | repeat constructor].
  - simpl. lia.
Defined.

(** C3, as the spec states it, fails: with a negative capacity the repair
    cannot converge, whatever budget it is given it does not return, and
    what the operator raises is the [ValueError] of [np.random.choice],
    not a [RepairNonTermination]. *)
Lemma repair_raises_ValueError :
  (∀ fuel r, _do fuel negative_problem the_pop (single_world [0]%nat) ≠ Returned r) ∧
  _do 2 negative_problem the_pop (single_world [0]%nat) = Raised ValueError ∧
  exn_name ValueError ≠ "RepairNonTermination".
Proof.
  split; [|split; [vm_compute; reflexivity | discriminate]].
  intros [|[|fuel]] r; vm_compute; discriminate.
Qed.

End RepairFacts.

Module BRKGAFacts.
Import BRKGA.

(** *** [np.argsort] *)

Lemma length_insert_position x i sorted :
  length (insert_position x i sorted) = S (length sorted).
Proof.
  induction sorted as [|j sorted IH]; simpl; [done|].
  destruct (Qle_bool _ _); simpl; by rewrite ?IH.
Qed.

Lemma length_insert_all x (positions sorted : list nat) :
  length (foldl (λ acc i, insert_position x i acc) sorted positions)
  = (length sorted + length positions)%nat.
Proof.
  revert sorted. induction positions as [|i positions IH]; intros sorted; simpl.
  - lia.
  - rewrite IH, length_insert_position. lia.
Qed.

Lemma length_np_argsort x : length (np_argsort x) = length x.
Proof. unfold np_argsort. by rewrite length_insert_all, length_seq. Qed.

Lemma insert_position_Permutation x i sorted :
  insert_position x i sorted ≡ₚ i :: sorted.
Proof.
  induction sorted as [|j sorted IH]; simpl; [done|].
  destruct (Qle_bool _ _); [|done].
  rewrite IH. apply Permutation_swap.
Qed.

Lemma insert_all_Permutation x (positions sorted : list nat) :
  foldl (λ acc i, insert_position x i acc) sorted positions ≡ₚ positions ++ sorted.
Proof.
  revert sorted. induction positions as [|i positions IH]; intros sorted; simpl; [done|].
  rewrite IH, insert_position_Permutation. by rewrite Permutation_middle.
Qed.

(** [np.argsort(x)] lists every position of [x] once ... *)
Lemma np_argsort_Permutation x : np_argsort x ≡ₚ seq 0 (length x).
Proof. unfold np_argsort. by rewrite insert_all_Permutation, app_nil_r. Qed.

(** ... in ascending order of the keys. *)

Lemma insert_position_HdRel x i j sorted :
  ascending x j i → HdRel (ascending x) j sorted →
  HdRel (ascending x) j (insert_position x i sorted).
Proof.
  intros Hji Hhd. destruct sorted as [|k sorted]; simpl.
  - by constructor.
  - inversion Hhd; subst. destruct (Qle_bool _ _); by constructor.
Qed.

Lemma insert_position_Sorted x i sorted :
  Sorted (ascending x) sorted → Sorted (ascending x) (insert_position x i sorted).
Proof.
  induction 1 as [|j sorted Hsorted IH Hhd]; simpl.
  - by repeat constructor.
  - destruct (Qle_bool (key x j) (key x i)) eqn:Hle.
    + apply Qle_bool_iff in Hle. constructor; [done|].
      by apply insert_position_HdRel.
    + constructor; [by constructor|]. constructor.
      unfold ascending. apply Qlt_le_weak, Qnot_le_lt.
      intros Hle'. apply Qle_bool_iff in Hle'. congruence.
Qed.

Lemma np_argsort_Sorted x : Sorted (ascending x) (np_argsort x).
Proof.
  unfold np_argsort. generalize (seq 0 (length x)).
  assert (Hnil : Sorted (ascending x) []) by constructor.
  revert Hnil. generalize (@nil nat).
  intros sorted Hsorted positions. revert sorted Hsorted.
  induction positions as [|i positions IH]; intros sorted Hsorted; simpl; [done|].
  by apply IH, insert_position_Sorted.
Qed.

(** *** Counting the agreeing positions *)

Lemma np_sum_le_length bs : (np_sum bs ≤ length bs)%nat.
Proof.
  unfold np_sum. induction bs as [|[] bs IH]; simpl in *; lia.
Qed.

Lemma length_np_equal a b :
  length a = length b → length (np_equal a b) = length a.
Proof. intros Hlen. unfold np_equal. by rewrite length_zip_with_l_eq. Qed.

Lemma np_sum_full a b :
  length a = length b →
  np_sum (np_equal a b) = length a ↔ a = b.
Proof.
  revert b. induction a as [|m a IH]; intros [|n b] Hlen; simpl in Hlen;
    try discriminate; [done|].
  injection Hlen as Hlen. unfold np_sum, np_equal in *. simpl.
  pose proof (np_sum_le_length (np_equal a b)) as Hbound.
  rewrite (length_np_equal a b Hlen) in Hbound. unfold np_sum, np_equal in Hbound.
  destruct (Nat.eqb_spec m n) as [->|Hne]; simpl.
  - split.
    + intros Hsum. f_equal. apply IH; [done | lia].
    + intros [= ->]. f_equal. by apply IH.
  - split; [lia | congruence].
Qed.

Section with_python.
Context (py_hash : string → Z) (np_str : list nat → string).

Lemma _evaluate_F self x :
  _evaluate py_hash np_str self x !! "F" =
  Some (Float (- inject_Z (Z.of_nat (np_sum (np_equal (correct self) (np_argsort x)))))).
Proof. unfold _evaluate. by simplify_map_eq. Qed.

Lemma _evaluate_pheno self x :
  _evaluate py_hash np_str self x !! "pheno" =
  Some (IntArray (map Z.of_nat (np_argsort x))).
Proof. unfold _evaluate. by simplify_map_eq. Qed.

Lemma _evaluate_hash self x :
  _evaluate py_hash np_str self x !! "hash" =
  Some (Int (py_hash (np_str (np_argsort x)))).
Proof. unfold _evaluate. by simplify_map_eq. Qed.

Lemma get_hash problem x :
  get (evaluate py_hash np_str problem x) "hash" =
  Some (IntArray [py_hash (np_str (np_argsort x))]).
Proof.
  unfold get, evaluate. simpl. by rewrite lookup_fmap, _evaluate_hash.
Qed.

(** ** Properties of the random-key problem *)

(** C10.  For a key vector [x] as long as the list the problem was built
    from, the objective written by [_evaluate] is minus the number of
    positions at which [argsort(x)] agrees with the target order; it
    lies between [-n] and [0], and it is [-n] exactly when the decoded
    phenotype is the target order. *)
Theorem objective_counts_agreements (my_list x : list Q) :
  length x = length my_list →
  ∃ f : Q,
    _evaluate py_hash np_str (__init__ my_list) x !! "F" = Some (Float f) ∧
    f = (- inject_Z (Z.of_nat
           (np_sum (np_equal (np_argsort my_list) (np_argsort x)))))%Q ∧
    (- inject_Z (Z.of_nat (n_var (__init__ my_list))) <= f)%Q ∧
    (f <= 0)%Q ∧
    ((f == - inject_Z (Z.of_nat (n_var (__init__ my_list))))%Q ↔
     np_argsort x = correct (__init__ my_list)).
Proof.
  intros Hlen. eexists. split; [apply _evaluate_F|]. split; [reflexivity|].
  simpl correct. simpl n_var.
  set (k := np_sum (np_equal (np_argsort my_list) (np_argsort x))).
  assert (Hsame : length (np_argsort my_list) = length (np_argsort x)).
  { by rewrite !length_np_argsort. }
  assert (Hk : (k ≤ length my_list)%nat).
  { pose proof (np_sum_le_length (np_equal (np_argsort my_list) (np_argsort x))) as Hb.
    rewrite (length_np_equal _ _ Hsame), length_np_argsort in Hb. exact Hb. }
  rewrite <- !inject_Z_opp. change 0%Q with (inject_Z 0).
  rewrite <- !Zle_Qle, inject_Z_injective.
  split; [lia|]. split; [lia|].
  pose proof (np_sum_full _ _ Hsame) as Hfull.
  rewrite length_np_argsort in Hfull. fold k in Hfull.
  split.
  - intros Heq. symmetry. apply Hfull. lia.
  - intros Heq. assert (k = length my_list) by (by apply Hfull). lia.
Qed.

(** C6.  For two individuals evaluated by the problem, [is_equal]
    returns whether the hashes of their decoded phenotypes are equal,
    that is, it returns [True] exactly when their [hash] attributes are
    equal; so two individuals whose keys decode to one phenotype are
    duplicates whatever their keys are. *)
Theorem is_equal_compares_phenotype_hash problem (xa xb : list Q) :
  is_equal (evaluate py_hash np_str problem xa) (evaluate py_hash np_str problem xb)
  = Returned (py_hash (np_str (np_argsort xa)) =? py_hash (np_str (np_argsort xb))) ∧
  (is_equal (evaluate py_hash np_str problem xa) (evaluate py_hash np_str problem xb)
   = Returned true ↔
   get (evaluate py_hash np_str problem xa) "hash"
   = get (evaluate py_hash np_str problem xb) "hash") ∧
  (np_argsort xa = np_argsort xb →
   is_equal (evaluate py_hash np_str problem xa) (evaluate py_hash np_str problem xb)
   = Returned true).
Proof.
  assert (Hrun : is_equal (evaluate py_hash np_str problem xa)
                          (evaluate py_hash np_str problem xb)
                 = Returned (py_hash (np_str (np_argsort xa)) =?
                             py_hash (np_str (np_argsort xb)))).
  { unfold is_equal. by rewrite !get_hash. }
  rewrite Hrun, !get_hash. split; [done|]. split; [split|].
  - intros [= Heq]. apply Z.eqb_eq in Heq. by rewrite Heq.
  - intros [= Heq]. by rewrite Heq, Z.eqb_refl.
  - intros ->. by rewrite Z.eqb_refl.
Qed.

End with_python.

(** Two different key vectors with one phenotype are duplicates. *)
Example different_keys_same_phenotype :
  let xa := [1 # 10; 9 # 10; 1 # 2]%Q in
  let xb := [2 # 10; 8 # 10; 3 # 10]%Q in
  let problem := __init__ [3 # 1; 1 # 1; 2 # 1]%Q in
  xa ≠ xb ∧
  np_argsort xa = [0; 2; 1]%nat ∧ np_argsort xb = [0; 2; 1]%nat ∧
  is_equal (evaluate toy_hash toy_str problem xa) (evaluate toy_hash toy_str problem xb)
  = Returned true.
Proof. cbv zeta. split; [discriminate|]. repeat split. Qed.

Lemma is_equal_compares_phenotype_hash_witness :
  let problem := __init__ [3 # 1; 1 # 1; 2 # 1]%Q in
  let a := evaluate toy_hash toy_str problem [1 # 10; 9 # 10; 1 # 2]%Q in
  let b := evaluate toy_hash toy_str problem [2 # 10; 8 # 10; 3 # 10]%Q in
  is_equal a b
  = Returned (toy_hash (toy_str (np_argsort [1 # 10; 9 # 10; 1 # 2]%Q)) =?
              toy_hash (toy_str (np_argsort [2 # 10; 8 # 10; 3 # 10]%Q))) ∧
  (is_equal a b = Returned true ↔ get a "hash" = get b "hash") ∧
  (np_argsort [1 # 10; 9 # 10; 1 # 2]%Q = np_argsort [2 # 10; 8 # 10; 3 # 10]%Q →
   is_equal a b = Returned true).
Proof.
  apply (is_equal_compares_phenotype_hash toy_hash toy_str
           (__init__ [3 # 1; 1 # 1; 2 # 1]%Q)
           [1 # 10; 9 # 10; 1 # 2]%Q [2 # 10; 8 # 10; 3 # 10]%Q).
Defined.

Lemma objective_counts_agreements_witness :
  ∃ f : Q,
    _evaluate toy_hash toy_str (__init__ [3 # 1; 1 # 1; 2 # 1]%Q)
      [1 # 10; 9 # 10; 1 # 2]%Q !! "F" = Some (Float f) ∧
    f = (- inject_Z (Z.of_nat
           (np_sum (np_equal (np_argsort [3 # 1; 1 # 1; 2 # 1]%Q)
                             (np_argsort [1 # 10; 9 # 10; 1 # 2]%Q)))))%Q ∧
    (- inject_Z (Z.of_nat (n_var (__init__ [3 # 1; 1 # 1; 2 # 1]%Q))) <= f)%Q ∧
    (f <= 0)%Q ∧
    ((f == - inject_Z (Z.of_nat (n_var (__init__ [3 # 1; 1 # 1; 2 # 1]%Q))))%Q ↔
     np_argsort [1 # 10; 9 # 10; 1 # 2]%Q = correct (__init__ [3 # 1; 1 # 1; 2 # 1]%Q)).
Proof.
  apply (objective_counts_agreements toy_hash toy_str
           [3 # 1; 1 # 1; 2 # 1]%Q [1 # 10; 9 # 10; 1 # 2]%Q).
  reflexivity.
Defined.

End BRKGAFacts.

Module ReporterFacts.
Import Reporter.

(** *** Minimum and mean *)

Lemma minimum_spec q l :
  (minimum q l <= q)%Q ∧
  Forall (λ r, (minimum q l <= r)%Q) l ∧
  minimum q l ∈ q :: l.
Proof.
  revert q. induction l as [|r l IH]; intros q; simpl.
  - split; [apply Qle_refl|]. split; [constructor | by left].
  - destruct (Qle_bool q r) eqn:Hle.
    + apply Qle_bool_iff in Hle.
      destruct (IH q) as (Hq & Hall & Hin). split; [done|]. split.
      * constructor; [by eapply Qle_trans | done].
      * apply elem_of_cons in Hin as [-> | Hin]; [by left | by do 2 right].
    + assert (Hrq : (r <= q)%Q).
      { apply Qlt_le_weak, Qnot_le_lt. intros Hqr.
        apply Qle_bool_iff in Hqr. congruence. }
      destruct (IH r) as (Hr & Hall & Hin). split; [by eapply Qle_trans|]. split.
      * by constructor.
      * by right.
Qed.

Lemma np_min_spec l :
  l ≠ [] → Forall (λ r, (np_min l <= r)%Q) l ∧ np_min l ∈ l.
Proof.
  destruct l as [|q l]; [done|]. intros _. simpl.
  destruct (minimum_spec q l) as (Hq & Hall & Hin). split; [by constructor | done].
Qed.

Lemma np_mean_spec l :
  l ≠ [] →
  (inject_Z (Z.of_nat (length l)) * np_mean l == foldr Qplus 0 l)%Q.
Proof.
  intros Hl. unfold np_mean. apply Qmult_div_r.
  destruct l as [|q l]; [done|].
  change 0%Q with (inject_Z 0). rewrite inject_Z_injective. simpl. lia.
Qed.

(** *** The report of one generation *)

Lemma filter_feasible_nil pop :
  List.filter feasible pop = [] ↔ ¬ has_feasible pop.
Proof.
  unfold has_feasible. induction pop as [|ind pop IH]; simpl.
  - split; [|done]. intros _ (ind & Hin & _). inversion Hin.
  - destruct (feasible ind) eqn:Hf.
    + split; [done|]. intros Hno. exfalso. apply Hno. exists ind. split; [by left | done].
    + rewrite IH. split.
      * intros Hno (i & Hin & Hi). apply elem_of_cons in Hin as [-> | Hin];
          [congruence | apply Hno; eauto].
      * intros Hno (i & Hin & Hi). apply Hno. exists i. split; [by right | done].
Qed.

Lemma has_feasible_dec pop : has_feasible pop ∨ ¬ has_feasible pop.
Proof.
  destruct (List.filter feasible pop) as [|ind l] eqn:Hf.
  - right. by apply filter_feasible_nil.
  - left. assert (Hin : In ind (List.filter feasible pop)) by (rewrite Hf; by left).
    apply filter_In in Hin as [Hin Hfeas]. exists ind.
    split; [by apply list_elem_of_In | done].
Qed.

Lemma elem_of_filter_feasible ind pop :
  ind ∈ List.filter feasible pop ↔ ind ∈ pop ∧ feasible ind = true.
Proof. by rewrite !list_elem_of_In, filter_In. Qed.

(** What a row says about the population it was computed from. *)
Lemma report_spec g e pop :
  pop ≠ [] →
  let row := report g e pop in
  n_gen row = g ∧ n_eval row = e ∧
  (∀ ind, ind ∈ pop → (cv_min row <= CV ind)%Q) ∧
  (∃ ind, ind ∈ pop ∧ cv_min row = CV ind) ∧
  (inject_Z (Z.of_nat (length pop)) * cv_avg row == foldr Qplus 0 (map CV pop))%Q.
Proof.
  intros Hpop row. split; [done|]. split; [done|].
  assert (Hcv : map CV pop ≠ []) by (by destruct pop).
  destruct (np_min_spec _ Hcv) as [Hall Hin]. split; [|split].
  - intros ind Hind. rewrite Forall_forall in Hall. apply Hall.
    by apply list_elem_of_In, in_map, list_elem_of_In.
  - apply list_elem_of_In, in_map_iff in Hin as (ind & Heq & Hind).
    apply list_elem_of_In in Hind. eauto.
  - pose proof (np_mean_spec _ Hcv) as Hmean. by rewrite length_map in Hmean.
Qed.

Lemma report_no_feasible g e pop :
  ¬ has_feasible pop →
  fopt (report g e pop) = None ∧ favg (report g e pop) = None.
Proof.
  intros Hno. apply filter_feasible_nil in Hno. unfold report. simpl.
  by rewrite Hno.
Qed.

Lemma report_feasible g e pop :
  has_feasible pop →
  ∃ best avg,
    fopt (report g e pop) = Some best ∧ favg (report g e pop) = Some avg ∧
    (∀ ind, ind ∈ pop → feasible ind = true → (best <= F ind)%Q) ∧
    (∃ ind, ind ∈ pop ∧ feasible ind = true ∧ best = F ind) ∧
    (inject_Z (Z.of_nat (length (List.filter feasible pop))) * avg
     == foldr Qplus 0 (map F (List.filter feasible pop)))%Q.
Proof.
  intros (ind0 & Hin0 & Hf0). unfold report. simpl.
  assert (Hne : map F (List.filter feasible pop) ≠ []).
  { assert (Hin : ind0 ∈ List.filter feasible pop)
      by (by apply elem_of_filter_feasible).
    destruct (List.filter feasible pop); [inversion Hin | done]. }
  destruct (np_min_spec _ Hne) as [Hall Hin].
  pose proof (np_mean_spec _ Hne) as Hmean. rewrite length_map in Hmean.
  destruct (map F (List.filter feasible pop)) as [|f fs] eqn:Hfs; [done|].
  eexists _, _. split; [reflexivity|]. split; [reflexivity|].
  split; [|split; [|exact Hmean]].
  - intros ind Hind Hfeas. rewrite Forall_forall in Hall. apply Hall.
    rewrite <- Hfs. apply list_elem_of_In, in_map, list_elem_of_In.
    by apply elem_of_filter_feasible.
  - rewrite <- Hfs in Hin.
    apply list_elem_of_In, in_map_iff in Hin as (ind & Heq & Hind).
    apply list_elem_of_In, elem_of_filter_feasible in Hind as [Hind Hfeas].
    exists ind. split; [done|]. split; [done|]. by rewrite <- Hfs.
Qed.

(** *** Survival *)

Lemma rank_insert_Permutation a ranked : rank_insert a ranked ≡ₚ a :: ranked.
Proof.
  induction ranked as [|b ranked IH]; simpl; [done|].
  destruct (outranks b a); [|done]. rewrite IH. apply Permutation_swap.
Qed.

Lemma rank_from_Permutation pool ranked :
  foldl (λ ranked a, rank_insert a ranked) ranked pool ≡ₚ pool ++ ranked.
Proof.
  revert ranked. induction pool as [|a pool IH]; intros ranked; simpl; [done|].
  rewrite IH, rank_insert_Permutation. by rewrite Permutation_middle.
Qed.

Lemma rank_Permutation pool : rank pool ≡ₚ pool.
Proof. unfold rank. by rewrite rank_from_Permutation, app_nil_r. Qed.

Lemma length_survival n pool :
  (n ≤ length pool)%nat → length (survival n pool) = n.
Proof.
  intros Hn. unfold survival. rewrite length_take, (Permutation_length (rank_Permutation pool)).
  lia.
Qed.

(** A ranked list with a feasible individual starts with one. *)
Lemma rank_insert_feasible_first a ranked :
  (has_feasible ranked → feasible <$> head ranked = Some true) →
  has_feasible (rank_insert a ranked) →
  feasible <$> head (rank_insert a ranked) = Some true.
Proof.
  intros Hinv Hfeas.
  assert (Hsome : has_feasible (a :: ranked)).
  { destruct Hfeas as (ind & Hin & Hf). exists ind. split; [|done].
    by rewrite <- (rank_insert_Permutation a ranked). }
  destruct ranked as [|b ranked]; simpl.
  - destruct Hsome as (ind & Hin & Hf).
    apply list_elem_of_singleton in Hin as ->. by rewrite Hf.
  - assert (Hcase : feasible b = true ∨
                    (feasible b = false ∧ ¬ has_feasible (b :: ranked))).
    { destruct (feasible b) eqn:Hb; [by left | right]. split; [done|].
      intros Hr. apply Hinv in Hr. simpl in Hr. congruence. }
    unfold outranks. destruct Hcase as [Hb | [Hb Hno]]; rewrite Hb.
    + destruct (feasible a) eqn:Ha.
      * destruct (Qle_bool (F b) (F a)); simpl; by rewrite ?Hb, ?Ha.
      * simpl. by rewrite Hb.
    + assert (Ha : feasible a = true).
      { destruct Hsome as (ind & Hin & Hf).
        apply elem_of_cons in Hin as [-> | Hin]; [done|].
        exfalso. apply Hno. by exists ind. }
      rewrite Ha. simpl. by rewrite Ha.
Qed.

Lemma rank_from_feasible_first pool ranked :
  (has_feasible ranked → feasible <$> head ranked = Some true) →
  has_feasible (foldl (λ ranked a, rank_insert a ranked) ranked pool) →
  feasible <$> head (foldl (λ ranked a, rank_insert a ranked) ranked pool) = Some true.
Proof.
  revert ranked. induction pool as [|a pool IH]; intros ranked Hinv; simpl; [done|].
  apply IH. by apply rank_insert_feasible_first.
Qed.

(** Survival keeps a feasible individual when there is one. *)
Lemma survival_has_feasible n pool :
  (0 < n)%nat → has_feasible pool → has_feasible (survival n pool).
Proof.
  intros Hn (ind & Hin & Hf).
  assert (Hranked : has_feasible (rank pool)).
  { exists ind. split; [by rewrite rank_Permutation | done]. }
  pose proof (rank_from_feasible_first pool [] ltac:(by intros (? & Hnil & _); inversion Hnil)
                Hranked) as Hhead.
  fold (rank pool) in Hhead. unfold survival.
  destruct (rank pool) as [|h t]; [done|]. simpl in Hhead.
  destruct n as [|n]; [lia|]. simpl. exists h. split; [by left|].
  by injection Hhead.
Qed.

(** *** The generational loop *)

Lemma run_length n g e pop offsprings :
  length (run n g e pop offsprings) = S (length offsprings).
Proof.
  revert g e pop. induction offsprings as [|off rest IH]; intros g e pop; simpl; [done|].
  by rewrite IH.
Qed.

(** Every entry of a run is a population of the configured size with its
    report. *)
Lemma run_entries n g e pop offsprings i p row :
  length pop = n →
  run n g e pop offsprings !! i = Some (p, row) →
  length p = n ∧ ∃ e', row = report (g + i) e' p.
Proof.
  revert g e pop i. induction offsprings as [|off rest IH]; intros g e pop i Hlen.
  - destruct i as [|i]; simpl; [|done]. intros [= <- <-].
    split; [done|]. exists e. by rewrite Nat.add_0_r.
  - destruct i as [|i]; simpl.
    + intros [= <- <-]. split; [done|]. exists e. by rewrite Nat.add_0_r.
    + intros Hi. apply IH in Hi as [Hp (e' & ->)].
      * split; [done|]. exists e'. f_equal. lia.
      * apply length_survival. rewrite length_app. lia.
Qed.

(** Once a population has a feasible individual, so have all later ones. *)
Lemma run_feasible_stays n g e pop offsprings i p row :
  (0 < n)%nat → has_feasible pop →
  run n g e pop offsprings !! i = Some (p, row) →
  has_feasible p.
Proof.
  intros Hn. revert g e pop i.
  induction offsprings as [|off rest IH]; intros g e pop i Hfeas.
  - destruct i as [|i]; simpl; [|done]. by intros [= <- <-].
  - destruct i as [|i]; simpl; [by intros [= <- <-]|].
    apply IH. apply survival_has_feasible; [done|].
    destruct Hfeas as (ind & Hin & Hf). exists ind. split; [|done].
    apply elem_of_app. by left.
Qed.

Lemma run_first_feasible n g e pop offsprings :
  (0 < n)%nat →
  ∃ first, ∀ i p row,
    run n g e pop offsprings !! i = Some (p, row) →
    ((i < first)%nat → ¬ has_feasible p) ∧ ((first ≤ i)%nat → has_feasible p).
Proof.
  intros Hn. revert g e pop.
  induction offsprings as [|off rest IH]; intros g e pop.
  - destruct (has_feasible_dec pop) as [Hyes | Hno].
    + exists 0%nat. intros [|i] p row; simpl; [|done]. intros [= <- <-].
      split; [lia | done].
    + exists 1%nat. intros [|i] p row; simpl; [|done]. intros [= <- <-].
      split; [done | lia].
  - destruct (has_feasible_dec pop) as [Hyes | Hno].
    + exists 0%nat. intros i p row Hi. split; [lia|]. intros _.
      by eapply (run_feasible_stays n g e pop (off :: rest)).
    + destruct (IH (S g) (e + length off)%nat (survival n (pop ++ off)))
        as [first Hfirst].
      exists (S first). intros [|i] p row; simpl.
      * intros [= <- <-]. split; [done | lia].
      * intros Hi. destruct (Hfirst i p row Hi) as [Hbefore Hafter].
        split; intros Hcmp; [apply Hbefore | apply Hafter]; lia.
Qed.

(** ** Properties of the report *)

(** C7.  In every run, every generation gets a row; the row records the
    minimum and the average constraint violation of the population of
    that generation; and there is a first generation with a feasible
    individual such that the best and the average feasible objective are
    the placeholder in every generation before it and numbers in every
    generation from it on: the least objective among the feasible
    individuals of the population, and the sum of their objectives divided
    by their number. *)
Theorem report_per_generation pop offsprings :
  (0 < length pop)%nat →
  length (minimize pop offsprings) = S (length offsprings) ∧
  ∃ first, ∀ g p row,
    minimize pop offsprings !! g = Some (p, row) →
    n_gen row = S g ∧
    (∀ ind, ind ∈ p → (cv_min row <= CV ind)%Q) ∧
    (∃ ind, ind ∈ p ∧ cv_min row = CV ind) ∧
    (inject_Z (Z.of_nat (length p)) * cv_avg row == foldr Qplus 0 (map CV p))%Q ∧
    ((g < first)%nat →
       ¬ has_feasible p ∧ fopt row = None ∧ favg row = None) ∧
    ((first ≤ g)%nat →
       has_feasible p ∧
       ∃ best avg, fopt row = Some best ∧ favg row = Some avg ∧
         (∀ ind, ind ∈ p → feasible ind = true → (best <= F ind)%Q) ∧
         (∃ ind, ind ∈ p ∧ feasible ind = true ∧ best = F ind) ∧
         (inject_Z (Z.of_nat (length (List.filter feasible p))) * avg
          == foldr Qplus 0 (map F (List.filter feasible p)))%Q).
Proof.
  intros Hn. unfold minimize. split; [apply run_length|].
  destruct (run_first_feasible (length pop) 1 (length pop) pop offsprings Hn)
    as [first Hfirst].
  exists first. intros g p row Hg.
  destruct (Hfirst g p row Hg) as [Hbefore Hafter].
  destruct (run_entries _ _ _ _ _ _ _ _ eq_refl Hg) as [Hlen (e' & ->)].
  assert (Hp : p ≠ []) by (intros ->; simpl in Hlen; lia).
  destruct (report_spec (1 + g) e' p Hp) as (Hgen & _ & Hmin & Hat & Havg).
  split; [done|]. split; [done|]. split; [done|]. split; [done|]. split.
  - intros Hcmp. split; [by apply Hbefore|]. by apply report_no_feasible, Hbefore.
  - intros Hcmp. split; [by apply Hafter|]. by apply report_feasible, Hafter.
Qed.

Lemma report_per_generation_witness :
  length (minimize tiny_pop tiny_offsprings) = S (length tiny_offsprings) ∧
  ∃ first, ∀ g p row,
    minimize tiny_pop tiny_offsprings !! g = Some (p, row) →
    n_gen row = S g ∧
    (∀ ind, ind ∈ p → (cv_min row <= CV ind)%Q) ∧
    (∃ ind, ind ∈ p ∧ cv_min row = CV ind) ∧
    (inject_Z (Z.of_nat (length p)) * cv_avg row == foldr Qplus 0 (map CV p))%Q ∧
    ((g < first)%nat →
       ¬ has_feasible p ∧ fopt row = None ∧ favg row = None) ∧
    ((first ≤ g)%nat →
       has_feasible p ∧
       ∃ best avg, fopt row = Some best ∧ favg row = Some avg ∧
         (∀ ind, ind ∈ p → feasible ind = true → (best <= F ind)%Q) ∧
         (∃ ind, ind ∈ p ∧ feasible ind = true ∧ best = F ind) ∧
         (inject_Z (Z.of_nat (length (List.filter feasible p))) * avg
          == foldr Qplus 0 (map F (List.filter feasible p)))%Q).
Proof. apply (report_per_generation tiny_pop tiny_offsprings). simpl. lia. Defined.

(** The small run: no feasible individual in the first generation, one
    from the second generation on. *)
Example tiny_run :
  map (λ entry, (map CV entry.1, fopt entry.2)) (minimize tiny_pop tiny_offsprings)
  = [ ([5 # 1; 2 # 1], None);
      ([0; 4 # 1], Some (- (1 # 1)));
      ([0; 0], Some (- (4 # 1))) ]%Q.
Proof. vm_compute. reflexivity. Qed.

End ReporterFacts.


Module RepairExtras.
Import Repair RepairView RepairFacts.

Section with_generator.
Context {G : Type} `{RandomState G} {T : Type} `{Dtype T}.
Implicit Types (g : G) (z : list bool) (problem : Knapsack T).

(** *** A population within capacity *)

Lemma repair_rows_idle fuel problem rows g :
  Forall (within_capacity problem) rows →
  repair_rows (S fuel) problem (C problem) rows
    (map (λ z, weigh z (W problem)) rows) g
  = Returned (rows, map (λ z, weigh z (W problem)) rows, g).
Proof.
  induction 1 as [|z rows Hz _ IH]; [done|].
  cbn [map repair_rows]. rewrite repair_while_unfold.
  unfold within_capacity in Hz. rewrite Hz. cbn [Py.bind]. rewrite IH. reflexivity.
Qed.

Lemma set_Xs_get_X (P : Population bool) : set_Xs P (get_X P) = P.
Proof.
  induction P as [|[x d] P IH]; [done|].
  unfold set_Xs, get_X in *. simpl. by rewrite IH.
Qed.

Lemma _do_idle fuel problem pop (σ : World G) P :
  heap σ !! pop = Some P →
  Forall (λ ind, within_capacity problem (X ind)) P →
  _do (S fuel) problem pop σ = Returned (pop, σ).
Proof.
  intros HP Hfeas. rewrite (_do_rows _ _ _ _ P HP).
  rewrite repair_rows_idle by (unfold get_X; by apply Forall_fmap).
  cbn [Py.bind]. rewrite set_Xs_get_X, (insert_id _ _ _ HP). by destruct σ.
Qed.

(** X12.  In every number type, a population in which every individual
    passes the test of the loop (its weighted sum, as the code computes
    it, is not above the capacity) is left as it is: [_do] returns the
    very store it was called on, and the generator is not asked for
    anything. *)
Theorem repair_skips_rows_below_capacity fuel problem pop (σ : World G) P :
  heap σ !! pop = Some P →
  well_shaped problem P →
  Forall (λ ind, within_capacity problem (X ind)) P →
  (0 < fuel)%nat →
  _do fuel problem pop σ = Returned (pop, σ).
Proof.
  intros HP _ Hfeas Hfuel. destruct fuel as [|fuel]; [lia|].
  by apply (_do_idle _ _ _ _ P HP).
Qed.

(** *** Populations put together *)

Lemma repair_population_rows fuel problem (P : Population bool) g :
  repair_population fuel problem P g =
  '(Zm', _, g') ←? repair_rows fuel problem (C problem) (get_X P)
                     (map (λ z, weigh z (W problem)) (get_X P)) g;
  Returned (set_Xs P Zm', g').
Proof.
  unfold repair_population.
  rewrite (_do_rows _ _ _ _ P) by apply lookup_singleton_eq. simpl.
  destruct (repair_rows _ _ _ _ _ _) as [[[Zm' ws'] g']| |]; simpl; [|done..].
  by rewrite lookup_total_insert_eq.
Qed.

Lemma repair_rows_app fuel problem Q rows1 ws1 rows2 ws2 g :
  length rows1 = length ws1 →
  repair_rows fuel problem Q (rows1 ++ rows2) (ws1 ++ ws2) g =
  '(r1, v1, g1) ←? repair_rows fuel problem Q rows1 ws1 g;
  '(r2, v2, g2) ←? repair_rows fuel problem Q rows2 ws2 g1;
  Returned (r1 ++ r2, v1 ++ v2, g2).
Proof.
  revert ws1 g. induction rows1 as [|z rows1 IH]; intros [|w ws1] g Hlen;
    simpl in Hlen; try discriminate.
  - simpl. by destruct (repair_rows fuel problem Q rows2 ws2 g) as [[[r2 v2] g2]| |].
  - injection Hlen as Hlen. simpl.
    destruct (repair_while fuel problem Q z w g) as [[[z1 w1] g1]| |]; simpl; [|done..].
    rewrite (IH ws1 g1 Hlen).
    destruct (repair_rows fuel problem Q rows1 ws1 g1) as [[[r1 v1] h1]| |];
      simpl; [|done..].
    by destruct (repair_rows fuel problem Q rows2 ws2 h1) as [[[r2 v2] h2]| |].
Qed.

Lemma repair_rows_length fuel problem rows g rows' ws' g' :
  repair_rows fuel problem (C problem) rows
    (map (λ z, weigh z (W problem)) rows) g = Returned (rows', ws', g') →
  length rows' = length rows.
Proof.
  intros Hrun. apply repair_rows_runs in Hrun. symmetry. by eapply Forall2_length.
Qed.

(** X7.  The individuals are repaired one after the other, each on its
    own: repairing two populations put together is repairing the first and
    then, from the generator state that leaves, the second. *)
Theorem repair_of_joined_populations fuel problem (P1 P2 : Population bool) g :
  repair_population fuel problem (P1 ++ P2) g =
  '(P1', g1) ←? repair_population fuel problem P1 g;
  '(P2', g2) ←? repair_population fuel problem P2 g1;
  Returned (P1' ++ P2', g2).
Proof.
  rewrite !repair_population_rows. unfold get_X. rewrite !map_app.
  rewrite repair_rows_app by (by rewrite !length_map).
  destruct (repair_rows fuel problem (C problem) (map X P1) _ g)
    as [[[r1 v1] g1]| |] eqn:Hfirst; simpl; [|done..].
  rewrite repair_population_rows. unfold get_X.
  destruct (repair_rows fuel problem (C problem) (map X P2) _ g1)
    as [[[r2 v2] g2]| |]; simpl; [|done..].
  apply repair_rows_length in Hfirst. rewrite length_map in Hfirst.
  unfold set_Xs. by rewrite zip_with_app.
Qed.

End with_generator.

Section int64_loop.
Context {G : Type} `{RandomState G}.
Implicit Types (g : G) (z : list bool) (problem : Knapsack int64).

(** X1.  With non-negative [int64] weights, a population in which every
    individual's weighted sum is within the capacity is left as it is:
    [_do] returns the very store it was called on, and the generator is
    not asked for anything. *)
Theorem repair_leaves_feasible_alone fuel problem pop (σ : World G) P :
  heap σ !! pop = Some P →
  well_shaped problem P →
  Forall (λ w, 0 ≤ w) (W problem) →
  Forall (λ ind, weighted_sum (W problem) (X ind) ≤ C problem) P →
  (0 < fuel)%nat →
  _do fuel problem pop σ = Returned (pop, σ).
Proof.
  intros HP _ HW Hfeas Hfuel. destruct fuel as [|fuel]; [lia|].
  apply (_do_idle _ _ _ _ P HP).
  eapply list.Forall_impl; [exact Hfeas|].
  intros ind Hle. by apply weighted_sum_within_capacity.
Qed.

(** X2.  With [int64] weights the repair is idempotent: called again on
    the store it has returned, [_do] returns that store unchanged and
    asks the generator for nothing. *)
Theorem repair_idempotent fuel problem pop (σ : World G) P r σ' :
  heap σ !! pop = Some P →
  well_shaped problem P →
  (0 < fuel)%nat →
  _do fuel problem pop σ = Returned (r, σ') →
  _do fuel problem r σ' = Returned (r, σ').
Proof.
  intros HP _ Hfuel Hrun. destruct fuel as [|fuel]; [lia|].
  destruct (_do_population _ _ _ _ _ _ _ HP Hrun) as (-> & P' & HP' & _ & Hrows).
  apply (_do_idle _ _ _ _ P' HP').
  apply Forall_lookup_2. intros i ind' Hi.
  destruct (Forall2_lookup_r _ _ _ _ _ Hrows Hi) as (ind & _ & Hrow & _).
  by eapply row_run_within_capacity.
Qed.

(** *** The loop stops as soon as the capacity is met *)

Lemma put_back_removed z j :
  z !! j = Some true → put_back j (<[j := false]> z) = z.
Proof.
  intros Hj. unfold put_back. rewrite list_insert_insert_eq.
  by apply list_insert_id.
Qed.

Lemma repair_while_last_removal fuel problem Q z g z' w' g' :
  repair_while fuel problem Q z (weigh z (W problem)) g = Returned (z', w', g') →
  dt_gt (weigh z (W problem)) Q = true →
  ∃ j, z !! j = Some true ∧ z' !! j = Some false ∧
       dt_gt (weigh (put_back j z') (W problem)) Q = true.
Proof.
  revert z g. induction fuel as [|fuel IH]; intros z g; [discriminate|].
  rewrite repair_while_unfold. intros Hrun Hover. rewrite Hover in Hrun.
  apply bind_Returned in Hrun as ([item g1] & Hch & Hrun).
  apply choice_Returned, elem_of_np_where in Hch as Hin.
  destruct (W problem !! item) as [wi|] eqn:HW; [|discriminate].
  rewrite (weigh_int64_remove _ _ _ _ Hin HW) in Hrun.
  destruct (dt_gt (weigh (<[item := false]> z) (W problem)) Q) eqn:Hstill.
  - destruct (IH _ _ Hrun Hstill) as (j & Hj & Hj' & Hlast).
    exists j. split; [|done].
    destruct (decide (item = j)) as [<- | Hne].
    + rewrite list_lookup_insert_eq in Hj by (by eapply lookup_lt_Some). discriminate.
    + by rewrite list_lookup_insert_ne in Hj.
  - apply repair_while_sound in Hrun as [_ _ _ Hidle _].
    destruct (Hidle Hstill) as (-> & _ & _).
    exists item. split; [done|]. split.
    + apply list_lookup_insert_eq. by eapply lookup_lt_Some.
    + by rewrite put_back_removed.
Qed.

(** X3.  With [int64] weights that are non-negative and fit an [int64]
    together, the repair removes no more than it must: in every
    individual it has changed there is an item it removed (selected
    before, unselected after) which, put back into the repaired plan,
    would exceed the capacity. *)
Theorem repair_last_removal_needed fuel problem pop (σ : World G) P r σ' :
  heap σ !! pop = Some P →
  well_shaped problem P →
  Forall (λ w, 0 ≤ w) (W problem) →
  total_weight (W problem) ≤ max_int64 →
  _do fuel problem pop σ = Returned (r, σ') →
  ∃ P', heap σ' !! pop = Some P' ∧
    Forall2 (λ ind ind',
      X ind' ≠ X ind →
      ∃ j, X ind !! j = Some true ∧ X ind' !! j = Some false ∧
           C problem < weighted_sum (W problem) (put_back j (X ind'))) P P'.
Proof.
  intros HP _ HW Htotal Hrun.
  destruct (_do_population _ _ _ _ _ _ _ HP Hrun) as (_ & P' & HP' & _ & Hrows).
  exists P'. split; [done|].
  eapply list.Forall2_impl; [exact Hrows|].
  intros ind ind' [Hrow _] Hchanged.
  destruct (dt_gt (weigh (X ind) (W problem)) (C problem)) eqn:Hover.
  - destruct Hrow as (g0 & w' & g1 & Hloop).
    destruct (repair_while_last_removal _ _ _ _ _ _ _ _ Hloop Hover)
      as (j & Hj & Hj' & Hlast).
    exists j. split; [done|]. split; [done|].
    rewrite (weigh_exact _ _ HW Htotal) in Hlast.
    cbn [dt_gt int64_dtype] in Hlast. by apply Z.ltb_lt in Hlast.
  - destruct (row_run_post _ _ _ _ Hrow) as (_ & _ & Hidle).
    by destruct Hchanged, (Hidle Hover).
Qed.

(** X4.  With [int64] weights that are non-negative and fit an [int64]
    together and a negative capacity, the repair of a population that is
    not empty never returns: whatever the generator hands out, [_do] ends
    in the [ValueError] of a choice among no item. *)
Theorem repair_negative_capacity_raises fuel problem pop (σ : World G) P :
  heap σ !! pop = Some P →
  well_shaped problem P →
  P ≠ [] →
  Forall (λ w, 0 ≤ w) (W problem) →
  total_weight (W problem) ≤ max_int64 →
  C problem < 0 →
  (n_var problem < fuel)%nat →
  _do fuel problem pop σ = Raised ValueError.
Proof.
  intros HP Hshape Hne HW Htotal Hneg Hfuel.
  rewrite (_do_rows _ _ _ _ P HP).
  destruct (repair_rows_outcome fuel problem (C problem) (get_X P)
              (map (λ z, weigh z (W problem)) (get_X P)) (np_random σ))
    as [[[[Zm' ws'] g'] Hr] | Hr]; [by apply rows_in_shape | | by rewrite Hr].
  exfalso. apply repair_rows_runs in Hr.
  destruct P as [|ind P]; [done|]. simpl in Hr.
  inversion Hr as [|z z' rows rows' Hrow _]; subst.
  apply row_run_within_capacity, within_capacity_exact in Hrow; [|done..].
  pose proof (exact_sum_bounds z' (W problem) HW) as Hpos.
  rewrite exact_sum_weighted_sum in Hpos. lia.
Qed.

(** *** Non-negative weights *)

Lemma exact_sum_removal z z' (Wt : list Z) :
  Forall (λ w, 0 ≤ w) Wt →
  length z' = length z →
  (∀ j, z !! j = Some false → z' !! j = Some false) →
  exact_sum z' Wt ≤ exact_sum z Wt.
Proof.
  intros HW. revert z z'.
  induction HW as [|w Wt Hw _ IH]; intros [|b z] [|b' z'] Hlen Hrem;
    simpl in *; try lia.
  assert (Htail : exact_sum z' Wt ≤ exact_sum z Wt).
  { apply IH; [lia|]. intros j Hj. apply (Hrem (S j) Hj). }
  destruct b, b'; try lia.
  specialize (Hrem 0%nat eq_refl). discriminate.
Qed.

(** X5.  With non-negative weights the repair makes no individual heavier:
    the weighted sum of every repaired individual is at most what it was. *)
Theorem repair_never_adds_weight fuel problem pop (σ : World G) P r σ' :
  heap σ !! pop = Some P →
  well_shaped problem P →
  Forall (λ w, 0 ≤ w) (W problem) →
  _do fuel problem pop σ = Returned (r, σ') →
  ∃ P', heap σ' !! pop = Some P' ∧
    Forall2 (λ ind ind',
      weighted_sum (W problem) (X ind') ≤ weighted_sum (W problem) (X ind)) P P'.
Proof.
  intros HP _ HW Hrun.
  destruct (_do_population _ _ _ _ _ _ _ HP Hrun) as (_ & P' & HP' & _ & Hrows).
  exists P'. split; [done|].
  eapply list.Forall2_impl; [exact Hrows|].
  intros ind ind' [Hrow _].
  destruct (row_run_post _ _ _ _ Hrow) as (Hlen & Hrem & _).
  rewrite <- !exact_sum_weighted_sum. by apply exact_sum_removal.
Qed.

End int64_loop.

(** *** The properties on the small instances *)

Lemma repair_leaves_feasible_alone_witness :
  _do 1 small_problem the_pop small_world_repaired
  = Returned (the_pop, small_world_repaired).
Proof.
  apply (repair_leaves_feasible_alone 1 small_problem the_pop
           small_world_repaired small_pop_repaired).
  - reflexivity.
  - split; [reflexivity | repeat constructor].
  - repeat constructor; simpl; lia.
  - repeat constructor; vm_compute; discriminate.
  - lia.
Defined.

Lemma repair_skips_rows_below_capacity_witness :
  _do 1 small_problem the_pop small_world_repaired
  = Returned (the_pop, small_world_repaired).
Proof.
  apply (repair_skips_rows_below_capacity 1 small_problem the_pop
           small_world_repaired small_pop_repaired).
  - reflexivity.
  - split; [reflexivity | repeat constructor].
  - repeat constructor.
  - lia.
Defined.

Lemma repair_idempotent_witness :
  _do 4 small_problem the_pop small_world_repaired
  = Returned (the_pop, small_world_repaired).
Proof.
  apply (repair_idempotent 4 small_problem the_pop (small_world [1; 0]%nat)
           small_pop the_pop small_world_repaired).
  - reflexivity.
  - split; [reflexivity | repeat constructor].
  - lia.
  - vm_compute. reflexivity.
Defined.

Lemma repair_last_removal_needed_witness :
  ∃ P', heap small_world_repaired !! the_pop = Some P' ∧
    Forall2 (λ ind ind',
      X ind' ≠ X ind →
      ∃ j, X ind !! j = Some true ∧ X ind' !! j = Some false ∧
           C small_problem < weighted_sum (W small_problem) (put_back j (X ind')))
      small_pop P'.
Proof.
  apply (repair_last_removal_needed 4 small_problem the_pop (small_world [1; 0]%nat)
           small_pop the_pop small_world_repaired).
  - reflexivity.
  - split; [reflexivity | repeat constructor].
  - repeat constructor; simpl; lia.
  - vm_compute. discriminate.
  - vm_compute. reflexivity.
Defined.

Lemma repair_negative_capacity_raises_witness :
  _do 2 negative_problem the_pop (single_world [0]%nat) = Raised ValueError.
Proof.
  apply (repair_negative_capacity_raises 2 negative_problem the_pop
           (single_world [0]%nat) [mkInd [true] ∅]).
  - reflexivity.
  - split; [reflexivity | repeat constructor].
  - discriminate.
  - repeat constructor. simpl. lia.
  - vm_compute. discriminate.
  - simpl. lia.
  - simpl. lia.
Defined.

Lemma repair_never_adds_weight_witness :
  ∃ P', heap small_world_repaired !! the_pop = Some P' ∧
    Forall2 (λ ind ind',
      weighted_sum (W small_problem) (X ind')
      ≤ weighted_sum (W small_problem) (X ind)) small_pop P'.
Proof.
  apply (repair_never_adds_weight 4 small_problem the_pop (small_world [1; 0]%nat)
           small_pop the_pop small_world_repaired).
  - reflexivity.
  - split; [reflexivity | repeat constructor].
  - repeat constructor; simpl; lia.
  - vm_compute. reflexivity.
Defined.

End RepairExtras.

Module BRKGAExtras.
Import BRKGA BRKGAView BRKGAFacts.

(** *** Key vectors that compare alike *)

Lemma same_order_spec x y :
  same_order x y = true →
  length x = length y ∧
  ∀ i j, (i < length x)%nat → (j < length x)%nat →
    Qle_bool (key x i) (key x j) = Qle_bool (key y i) (key y j).
Proof.
  unfold same_order. intros Hsame.
  apply andb_prop in Hsame as [Hlen Hall]. apply Nat.eqb_eq in Hlen.
  split; [done|]. intros i j Hi Hj.
  rewrite forallb_forall in Hall.
  assert (Hrow := Hall i ltac:(apply in_seq; lia)).
  rewrite forallb_forall in Hrow.
  by apply Bool.eqb_prop, Hrow, in_seq; lia.
Qed.

Lemma insert_position_bound x n i sorted :
  (i < n)%nat → Forall (λ j, (j < n)%nat) sorted →
  Forall (λ j, (j < n)%nat) (insert_position x i sorted).
Proof.
  intros Hi Hsorted.
  by rewrite (insert_position_Permutation x i sorted), Forall_cons.
Qed.

Lemma insert_position_alike x y n i sorted :
  (∀ i j, (i < n)%nat → (j < n)%nat →
     Qle_bool (key x i) (key x j) = Qle_bool (key y i) (key y j)) →
  (i < n)%nat → Forall (λ j, (j < n)%nat) sorted →
  insert_position x i sorted = insert_position y i sorted.
Proof.
  intros Halike Hi. induction 1 as [|j sorted Hj _ IH]; simpl; [done|].
  rewrite (Halike j i Hj Hi), IH. reflexivity.
Qed.

Lemma insert_all_alike x y n positions sorted :
  (∀ i j, (i < n)%nat → (j < n)%nat →
     Qle_bool (key x i) (key x j) = Qle_bool (key y i) (key y j)) →
  Forall (λ j, (j < n)%nat) positions → Forall (λ j, (j < n)%nat) sorted →
  foldl (λ acc i, insert_position x i acc) sorted positions
  = foldl (λ acc i, insert_position y i acc) sorted positions.
Proof.
  intros Halike Hpos. revert sorted.
  induction Hpos as [|i positions Hi _ IH]; intros sorted Hsorted; simpl; [done|].
  rewrite (insert_position_alike x y n i sorted) by done.
  apply IH. by apply insert_position_bound.
Qed.

Lemma np_argsort_alike x y :
  same_order x y = true → np_argsort x = np_argsort y.
Proof.
  intros Hsame. apply same_order_spec in Hsame as [Hlen Halike].
  unfold np_argsort. rewrite <- Hlen.
  apply (insert_all_alike x y (length x)); [done | | constructor].
  apply Forall_forall. intros i Hi. apply elem_of_seq in Hi. lia.
Qed.

Section with_python.
Context (py_hash : string → Z) (np_str : list nat → string).

(** ** Properties of the random-key problem, continued *)

(** X8.  The phenotype that [_evaluate] stores is a permutation of the
    positions [0 .. n-1] of the key vector, without repetition, and lists
    them in ascending order of their keys; the target order [correct] set
    up by [__init__] is such a permutation too. *)
Theorem phenotype_is_sorted_permutation self (x my_list : list Q) :
  ∃ pheno,
    _evaluate py_hash np_str self x !! "pheno" = Some (IntArray (map Z.of_nat pheno)) ∧
    pheno ≡ₚ seq 0 (length x) ∧
    NoDup pheno ∧
    Sorted (ascending x) pheno ∧
    correct (__init__ my_list) ≡ₚ seq 0 (n_var (__init__ my_list)).
Proof.
  exists (np_argsort x). split; [apply _evaluate_pheno|].
  split; [apply np_argsort_Permutation|]. split; [|split].
  - rewrite np_argsort_Permutation. apply NoDup_seq.
  - apply np_argsort_Sorted.
  - apply np_argsort_Permutation.
Qed.

(** X9.  The evaluation sees the keys only through their order: two key
    vectors of one length whose keys compare alike position by position get
    the same objective, the same phenotype and the same hash. *)
Theorem evaluation_depends_on_order_only self (x y : list Q) :
  same_order x y = true →
  _evaluate py_hash np_str self x = _evaluate py_hash np_str self y.
Proof.
  intros Hsame. unfold _evaluate. by rewrite (np_argsort_alike x y Hsame).
Qed.

(** X10.  Every key vector ordered like the list to sort is optimal: its
    objective is [-n], the full match. *)
Theorem keys_ordered_like_target_are_optimal (my_list x : list Q) :
  same_order my_list x = true →
  _evaluate py_hash np_str (__init__ my_list) x !! "F"
  = Some (Float (- inject_Z (Z.of_nat (n_var (__init__ my_list))))).
Proof.
  intros Hsame. rewrite _evaluate_F. simpl correct. simpl n_var.
  rewrite <- (np_argsort_alike my_list x Hsame).
  assert (Hfull : np_sum (np_equal (np_argsort my_list) (np_argsort my_list))
                  = length (np_argsort my_list)) by (by apply np_sum_full).
  by rewrite Hfull, length_np_argsort.
Qed.

(** X11.  On individuals evaluated by the problem, [is_equal] is an
    equivalence: every individual equals itself, the order of the two
    arguments does not matter, and equality carries over a chain. *)
Theorem is_equal_is_an_equivalence problem (xa xb xc : list Q) :
  let a := evaluate py_hash np_str problem xa in
  let b := evaluate py_hash np_str problem xb in
  let c := evaluate py_hash np_str problem xc in
  is_equal a a = Returned true ∧
  is_equal a b = is_equal b a ∧
  (is_equal a b = Returned true → is_equal b c = Returned true →
   is_equal a c = Returned true).
Proof.
  cbv zeta. unfold is_equal. rewrite !get_hash. simpl.
  split; [by rewrite Z.eqb_refl|]. split; [by rewrite Z.eqb_sym|].
  intros [= Hab] [= Hbc]. apply Z.eqb_eq in Hab, Hbc.
  by rewrite Hab, Hbc, Z.eqb_refl.
Qed.

End with_python.

Lemma evaluation_depends_on_order_only_witness :
  _evaluate toy_hash toy_str (__init__ [3 # 1; 1 # 1; 2 # 1]%Q)
    [1 # 10; 9 # 10; 1 # 2]%Q
  = _evaluate toy_hash toy_str (__init__ [3 # 1; 1 # 1; 2 # 1]%Q)
      [2 # 10; 8 # 10; 3 # 10]%Q.
Proof.
  apply (evaluation_depends_on_order_only toy_hash toy_str
           (__init__ [3 # 1; 1 # 1; 2 # 1]%Q)
           [1 # 10; 9 # 10; 1 # 2]%Q [2 # 10; 8 # 10; 3 # 10]%Q).
  vm_compute. reflexivity.
Defined.

Lemma keys_ordered_like_target_are_optimal_witness :
  _evaluate toy_hash toy_str (__init__ [3 # 1; 1 # 1; 2 # 1]%Q)
    [9 # 10; 1 # 10; 1 # 2]%Q !! "F"
  = Some (Float (- inject_Z (Z.of_nat (n_var (__init__ [3 # 1; 1 # 1; 2 # 1]%Q))))).
Proof.
  apply (keys_ordered_like_target_are_optimal toy_hash toy_str
           [3 # 1; 1 # 1; 2 # 1]%Q [9 # 10; 1 # 10; 1 # 2]%Q).
  vm_compute. reflexivity.
Defined.

Lemma is_equal_is_an_equivalence_witness :
  let problem := __init__ [3 # 1; 1 # 1; 2 # 1]%Q in
  let a := evaluate toy_hash toy_str problem [1 # 10; 9 # 10; 1 # 2]%Q in
  let b := evaluate toy_hash toy_str problem [2 # 10; 8 # 10; 3 # 10]%Q in
  let c := evaluate toy_hash toy_str problem [0; 1 # 1; 1 # 3]%Q in
  is_equal a a = Returned true ∧
  is_equal a b = is_equal b a ∧
  (is_equal a b = Returned true → is_equal b c = Returned true →
   is_equal a c = Returned true).
Proof.
  apply (is_equal_is_an_equivalence toy_hash toy_str
           (__init__ [3 # 1; 1 # 1; 2 # 1]%Q)
           [1 # 10; 9 # 10; 1 # 2]%Q [2 # 10; 8 # 10; 3 # 10]%Q [0; 1 # 1; 1 # 3]%Q).
Defined.

End BRKGAExtras.

